(** * Segment construction for diarized transcripts (app.py)

    A shallow embedding of [app.py]: the upload endpoint, the extension
    filter, and the loop of [process_audio_with_diarization] that groups the
    recognised words into speaker turns.

    Conventions of the embedding.
    - A Python [str] is a [string]; each [ascii] is read as a code point
      below 256.
    - A [datetime.timedelta] is its integer number of microseconds.
    - A Python [float] is represented by the rational number it denotes
      (type [float], carried by [Q]), so [0.0] and [-0.0] are one value.
      The two float-producing operations the program uses,
      [timedelta.total_seconds()] and [round(x, 2)], are modelled with their
      binary64 round-to-nearest-even results (unbounded exponent range,
      which covers every [timedelta]).
    - An exception is a value of [exn]; code that may raise returns
      [result]. *)

From Stdlib Require Import ZArith QArith Qround Qpower Qreduction.
From Stdlib Require Import Lia Lqa Bool List Ascii String Sorted.
From Stdlib Require DecimalString DecimalZ DecimalPos.
Import ListNotations.

Local Open Scope Z_scope.

(* ================================================================== *)
(** * Floating-point numbers *)
(* ================================================================== *)

Module Float.

Local Open Scope Q_scope.

(** The value of a Python float. *)
Definition float := Q.

(** Round a rational to the nearest integer, ties to the even one. *)
Definition round_half_even (x : Q) : Z :=
  let q := Qfloor x in
  match Qcompare (x - inject_Z q) (1 # 2) with
  | Lt => q
  | Eq => if Z.even q then q else (q + 1)%Z
  | Gt => (q + 1)%Z
  end.

(** [ilog2 x] is the integer [e] with [2^e <= x < 2^(e+1)], for [0 < x]. *)
Definition ilog2 (x : Q) : Z :=
  let a := (Z.log2 (Qnum x) - Z.log2 (Zpos (Qden x)))%Z in
  if Qle_bool (Qpower 2 a) x then a else (a - 1)%Z.

(** Number of significand bits of a binary64. *)
Definition prec : Z := 53.

(** Nearest binary64 to a positive rational: scale the value so that it
    lies in [2^52, 2^53), round the significand half-even, scale back. *)
Definition nearest_pos (x : Q) : Q :=
  let e := (ilog2 x - (prec - 1))%Z in
  Qred (inject_Z (round_half_even (x * 2 ^ (- e))) * 2 ^ e).

(** Nearest binary64 to a rational, in sign and magnitude. *)
Definition binary64 (x : Q) : float :=
  match x ?= 0 with
  | Eq => 0
  | Gt => nearest_pos x
  | Lt => Qred (- nearest_pos (- x))
  end.

(** [round(x, 2)]: the exact value of [x] is rounded half-even to two
    decimals, and the resulting decimal is read back as a float. *)
Definition round2 (x : float) : float :=
  binary64 (inject_Z (round_half_even (x * 100)) / 100).

(** Python's [a <= b] and [a > b] on floats. *)
Definition le (a b : float) : Prop := a <= b.
Definition gtb (a b : float) : bool := negb (Qle_bool a b).

End Float.

Import Float.

(* ================================================================== *)
(** * Python strings and lists *)
(* ================================================================== *)

Module Py.

Local Open Scope string_scope.
Local Open Scope Z_scope.

(** [str.isspace] on a code point below 256. *)
Definition is_space (c : ascii) : bool :=
  let n := N_of_ascii c in
  (((9 <=? n) && (n <=? 13)) || ((28 <=? n) && (n <=? 32)) || (n =? 133) || (n =? 160))%N.

Fixpoint lstrip (s : string) : string :=
  match s with
  | EmptyString => EmptyString
  | String c s' => if is_space c then lstrip s' else s
  end.

Fixpoint rstrip (s : string) : string :=
  match s with
  | EmptyString => EmptyString
  | String c s' =>
      match rstrip s' with
      | EmptyString => if is_space c then EmptyString else String c EmptyString
      | r => String c r
      end
  end.

(** [s.strip()] *)
Definition strip (s : string) : string := rstrip (lstrip s).

(** [sep.join(parts)] *)
Definition join (sep : string) (parts : list string) : string :=
  String.concat sep parts.

(** [str.lower] on a code point below 256. *)
Definition lower_char (c : ascii) : ascii :=
  let n := N_of_ascii c in
  if (((65 <=? n) && (n <=? 90)) ||
      ((192 <=? n) && (n <=? 222) && negb (n =? 215)))%N
  then ascii_of_N (n + 32) else c.

Fixpoint lower (s : string) : string :=
  match s with
  | EmptyString => EmptyString
  | String c s' => String (lower_char c) (lower s')
  end.

(** [c in s] for a one-character needle. *)
Fixpoint contains (c : ascii) (s : string) : bool :=
  match s with
  | EmptyString => false
  | String a s' => Ascii.eqb a c || contains c s'
  end.

(** Split at the last occurrence of [c], if there is one. *)
Fixpoint split_last (c : ascii) (s : string) : option (string * string) :=
  match s with
  | EmptyString => None
  | String a s' =>
      match split_last c s' with
      | Some (h, t) => Some (String a h, t)
      | None => if Ascii.eqb a c then Some (EmptyString, s') else None
      end
  end.

(** [s.rsplit(c, 1)] *)
Definition rsplit1 (c : ascii) (s : string) : list string :=
  match split_last c s with
  | Some (h, t) => [h; t]
  | None => [s]
  end.

(** [str(n)] for an integer, as an f-string formats it. *)
Definition str_of_int (n : Z) : string :=
  DecimalString.NilZero.string_of_int (Z.to_int n).

(** [os.path.join(a, b)] on a POSIX system. *)
Definition os_path_join (a b : string) : string :=
  if prefix "/" b then b
  else if String.eqb a "" then b
  else if Ascii.eqb (last (list_ascii_of_string a) "/"%char) "/"%char then (a ++ b)%string
  else (a ++ "/" ++ b)%string.

(** Exceptions; code that may raise returns a [result]. *)
Inductive exn : Type :=
| IndexError
| Exception (msg : string).

Inductive result (A : Type) : Type :=
| Ok (a : A)
| Raise (e : exn).

Arguments Ok {A} a.
Arguments Raise {A} e.

Definition bind {A B} (c : result A) (k : A -> result B) : result B :=
  match c with
  | Ok a => k a
  | Raise e => Raise e
  end.

(** [l[i]]: a negative index counts from the end; an index outside
    [-len(l) <= i < len(l)] raises [IndexError]. *)
Definition getitem {A} (l : list A) (i : Z) : result A :=
  let n := Z.of_nat (List.length l) in
  if (0 <=? i) && (i <? n) then
    match nth_error l (Z.to_nat i) with Some a => Ok a | None => Raise IndexError end
  else if (- n <=? i) && (i <? 0) then
    match nth_error l (Z.to_nat (n + i)) with Some a => Ok a | None => Raise IndexError end
  else Raise IndexError.

End Py.

Import Py.

Notation "x <- c ;; k" := (bind c (fun x => k))
  (at level 61, c at next level, right associativity).

(* ================================================================== *)
(** * Data model *)
(* ================================================================== *)

(** A [datetime.timedelta], as its number of microseconds. *)
Definition timedelta := Z.

(** [td.total_seconds()]: the microsecond count divided by [10**6],
    correctly rounded. *)
Definition total_seconds (td : timedelta) : float :=
  binary64 (inject_Z td / inject_Z 1000000).

(** One recognised word ([WordInfo] of the speech API). *)
Record WordInfo := {
  word : string;
  speaker_tag : Z;
  start_time : timedelta;
  end_time : timedelta
}.

Record Alternative := {
  transcript : string;
  words : list WordInfo
}.

Record RecognitionResult := {
  alternatives : list Alternative
}.

Record RecognizeResponse := {
  results : list RecognitionResult
}.

(** One entry of the returned list: the dict with keys
    ["speaker"], ["start"], ["end"], ["text"]. *)
Record Segment := {
  speaker : string;
  start : float;
  end_ : float;
  text : string
}.

(* ================================================================== *)
(** * Grouping words by speaker (app.py, lines 103-156) *)
(* ================================================================== *)

(** The variables the loop updates. *)
Record LoopState := {
  segments : list Segment;
  current_speaker : Z;
  current_start : float;
  current_words : list string
}.

(** The dict appended when a run is closed. *)
Definition closed_segment (st : LoopState) (end_time : float) : Segment :=
  {| speaker := ("Speaker " ++ str_of_int (current_speaker st))%string;
     start := round2 (current_start st);
     end_ := round2 end_time;
     text := strip (join " " (current_words st)) |}.

(** Body of [for idx, w in enumerate(words)]. *)
Definition loop_body (words : list WordInfo) (idx : Z) (w : WordInfo)
    (st : LoopState) : result LoopState :=
  let speaker := speaker_tag w in
  let word_text := word w in
  if negb (speaker =? current_speaker st) then
    last_word <- getitem words (idx - 1) ;;
    let end_time := total_seconds (end_time last_word) in
    Ok {| segments := segments st ++ [closed_segment st end_time];
          current_speaker := speaker;
          current_start := total_seconds (start_time w);
          current_words := [word_text] |}
  else
    Ok {| segments := segments st;
          current_speaker := current_speaker st;
          current_start := current_start st;
          current_words := current_words st ++ [word_text] |}.

(** The loop over [enumerate(todo)], with [idx] the index of the head of
    [todo] in [words]. *)
Fixpoint loop (words : list WordInfo) (idx : Z) (todo : list WordInfo)
    (st : LoopState) : result LoopState :=
  match todo with
  | [] => Ok st
  | w :: todo' =>
      st' <- loop_body words idx w st ;;
      loop words (idx + 1) todo' st'
  end.

(** The state the loop starts from (lines 117-119). *)
Definition initial_state (words : list WordInfo) : result LoopState :=
  first <- getitem words 0 ;;
  let current_speaker := speaker_tag first in
  first <- getitem words 0 ;;
  let current_start := total_seconds (start_time first) in
  Ok {| segments := [];
        current_speaker := current_speaker;
        current_start := current_start;
        current_words := [] |}.

(** Lines 103-156: from the word list, the transcript of the alternative
    and the clip duration to the list of segments. *)
Definition build_segments (words : list WordInfo) (fallback_transcript : string)
    (duration_sec : float) : result (list Segment) :=
  match words with
  | [] =>
      Ok [ {| speaker := "unknown";
              start := 0%Q;
              end_ := duration_sec;
              text := strip fallback_transcript |} ]
  | _ :: _ =>
      st0 <- initial_state words ;;
      st <- loop words 0 words st0 ;;
      last_word <- getitem words (-1) ;;
      let last_end := total_seconds (end_time last_word) in
      Ok (segments st ++ [closed_segment st last_end])
  end.

(** Lines 95-156: what is returned once the service has answered. *)
Definition segments_of_response (response : RecognizeResponse)
    (duration_sec : float) : result (list Segment) :=
  match results response with
  | [] => Ok []
  | _ :: _ =>
      result <- getitem (results response) (-1) ;;
      alternative <- getitem (alternatives result) 0 ;;
      build_segments (words alternative) (transcript alternative) duration_sec
  end.

(** The state of the loop after its first [n] iterations. *)
Definition state_after (words : list WordInfo) (n : nat) : result LoopState :=
  st0 <- initial_state words ;;
  loop words 0 (firstn n words) st0.

(* ================================================================== *)
(** * The reference algorithm of the specification *)
(* ================================================================== *)

(** Written from the algorithm of the specification (section 4.1, steps 1
    to 4), not from the code: the run is initialised from the first word
    with a one-element buffer, and only the words after the first are
    scanned. *)

Module Spec.

(** The current run: its speaker tag, its recorded start time and the
    buffer of word texts. *)
Record Run := {
  run_tag : Z;
  run_start : float;
  run_buffer : list string
}.

(** A run that starts at the word [w], with a one-element buffer. *)
Definition new_run (w : WordInfo) : Run :=
  {| run_tag := speaker_tag w;
     run_start := total_seconds (start_time w);
     run_buffer := [word w] |}.

(** The run continued by the word [w]. *)
Definition extend_run (r : Run) (w : WordInfo) : Run :=
  {| run_tag := run_tag r;
     run_start := run_start r;
     run_buffer := run_buffer r ++ [word w] |}.

(** Closing a run at the end time [e] of the last word it holds; start and
    end are rounded to two decimals when the segment is emitted. *)
Definition close_run (r : Run) (e : timedelta) : Segment :=
  {| speaker := ("Speaker " ++ str_of_int (run_tag r))%string;
     start := round2 (run_start r);
     end_ := round2 (total_seconds e);
     text := strip (join " " (run_buffer r)) |}.

(** Steps 2 and 3: the scan over the words after the first; [prev] is the
    word immediately before the head of [rest]. *)
Fixpoint scan (r : Run) (prev : WordInfo) (rest : list WordInfo) : list Segment :=
  match rest with
  | [] => [close_run r (end_time prev)]
  | w :: rest' =>
      if speaker_tag w =? run_tag r
      then scan (extend_run r w) w rest'
      else close_run r (end_time prev) :: scan (new_run w) w rest'
  end.

(** [build_segments(words, fallback_transcript, total_duration)]: the
    fallback segment for an empty list; otherwise step 1 and the scan. *)
Definition build_segments (words : list WordInfo) (fallback_transcript : string)
    (total_duration : float) : list Segment :=
  match words with
  | [] =>
      [ {| speaker := "unknown";
           start := 0%Q;
           end_ := total_duration;
           text := strip fallback_transcript |} ]
  | w0 :: rest => scan (new_run w0) w0 rest
  end.

End Spec.

(** The run that the variables of the loop describe. *)
Definition run_of (st : LoopState) : Spec.Run :=
  {| Spec.run_tag := current_speaker st;
     Spec.run_start := current_start st;
     Spec.run_buffer := current_words st |}.

(* ================================================================== *)
(** * Runs of one speaker *)
(* ================================================================== *)

(** The maximal runs of consecutive words with equal speaker tags. *)
Fixpoint maximal_runs (ws : list WordInfo) : list (list WordInfo) :=
  match ws with
  | [] => []
  | w :: ws' =>
      match maximal_runs ws' with
      | (w' :: r) :: rs =>
          if speaker_tag w =? speaker_tag w'
          then (w :: w' :: r) :: rs
          else [w] :: (w' :: r) :: rs
      | _ => [[w]]
      end
  end.

(** Every run is non-empty and carries one speaker tag. *)
Definition uniform_run (r : list WordInfo) : Prop :=
  match r with
  | [] => False
  | w :: r' => Forall (fun x => speaker_tag x = speaker_tag w) r'
  end.

(** Adjacent runs: no tag of one equals the first tag of the next. *)
Fixpoint runs_separated (rs : list (list WordInfo)) : Prop :=
  match rs with
  | r1 :: ((w2 :: _) :: _) as rs' =>
      Forall (fun x => speaker_tag x <> speaker_tag w2) r1 /\ runs_separated rs'
  | _ => True
  end.

(** The segment that stands for the run [w :: r]. *)
Definition segment_of_run (w : WordInfo) (r : list WordInfo) : Segment :=
  {| speaker := ("Speaker " ++ str_of_int (speaker_tag w))%string;
     start := round2 (total_seconds (start_time w));
     end_ := round2 (total_seconds (end_time (last r w)));
     text := strip (join " " (map word (w :: r))) |}.

(** The word [(tag, s, e, text)]: spoken from second [s] to second [e]. *)
Definition word_at (tag : Z) (s e : Z) (text : string) : WordInfo :=
  {| word := text;
     speaker_tag := tag;
     start_time := s * 1000000;
     end_time := e * 1000000 |}.

(** A float that [round(x, 2)] can return. *)
Definition rounded_2dp (v : float) : Prop := exists x : float, v = round2 x.

(** The input contract on the word times. *)
Definition well_timed (ws : list WordInfo) : Prop :=
  Forall (fun w => start_time w <= end_time w) ws /\
  Sorted (fun a b => start_time a <= start_time b) ws.

(** A word text that is not empty and has no whitespace at either end. *)
Definition trimmed_word (s : string) : Prop := s <> EmptyString /\ strip s = s.

(* ================================================================== *)
(** * The upload endpoint (app.py, lines 16-47) and the pipeline *)
(* ================================================================== *)

Definition UPLOAD_FOLDER : string := "uploads".

Definition ALLOWED_EXTENSIONS : list string := ["wav"; "mp3"; "flac"; "m4a"]%string.

(** [allowed_file(filename)] *)
Definition allowed_file (filename : string) : result bool :=
  if contains "." filename then
    ext <- getitem (rsplit1 "." filename) 1 ;;
    Ok (existsb (String.eqb (lower ext)) ALLOWED_EXTENSIONS)
  else Ok false.

(** The text after the last dot of a file name, if it has a dot. *)
Definition extension (filename : string) : option string :=
  match split_last "." filename with
  | Some (_, ext) => Some ext
  | None => None
  end.

Definition bytes := list Byte.byte.

(** An uploaded file ([werkzeug.FileStorage]). *)
Record FileStorage := {
  filename : string;
  stream : bytes
}.

(** The part of the request the handler reads: [request.files]. *)
Record Request := {
  files : list (string * FileStorage)
}.

Fixpoint lookup {A} (key : string) (d : list (string * A)) : option A :=
  match d with
  | [] => None
  | (k, v) :: d' => if String.eqb k key then Some v else lookup key d'
  end.

(** The JSON body of a response. *)
Inductive Body : Type :=
| error_body (msg : string)
| exception_body (e : exn)
| segments_body (segs : list Segment).

Record Response := {
  body : Body;
  status : Z
}.

Record SpeakerDiarizationConfig := {
  enable_speaker_diarization : bool;
  min_speaker_count : Z;
  max_speaker_count : Z
}.

Inductive AudioEncoding : Type := LINEAR16.

Record RecognitionConfig := {
  encoding : AudioEncoding;
  sample_rate_hertz : Z;
  language_code : string;
  enable_word_time_offsets : bool;
  enable_automatic_punctuation : bool;
  diarization_config : SpeakerDiarizationConfig;
  model : string
}.

Definition set_model (c : RecognitionConfig) (m : string) : RecognitionConfig :=
  {| encoding := encoding c;
     sample_rate_hertz := sample_rate_hertz c;
     language_code := language_code c;
     enable_word_time_offsets := enable_word_time_offsets c;
     enable_automatic_punctuation := enable_automatic_punctuation c;
     diarization_config := diarization_config c;
     model := m |}.

Section Endpoint.

(** The state outside the program: the file system and the remote
    service. *)
Variable World : Type.

(** A computation that reads and changes the world and may raise. *)
Definition M (A : Type) : Type := World -> result A * World.

Definition ret {A} (a : A) : M A := fun w => (Ok a, w).

Definition bindM {A B} (c : M A) (k : A -> M B) : M B :=
  fun w =>
    match c w with
    | (Ok a, w') => k a w'
    | (Raise e, w') => (Raise e, w')
    end.

Definition lift {A} (r : result A) : M A := fun w => (r, w).

(** [try: c  except Exception as e: h e] *)
Definition try_except {A} (c : M A) (h : exn -> M A) : M A :=
  fun w =>
    match c w with
    | (Ok a, w') => (Ok a, w')
    | (Raise e, w') => h e w'
    end.

Notation "x <~ c ;; k" := (bindM c (fun x => k))
  (at level 61, c at next level, right associativity).

(** The collaborators: pydub, the file system, the speech client. *)
Variable AudioSegment : Type.
Variable from_file : string -> M AudioSegment.
Variable set_channels : AudioSegment -> Z -> AudioSegment.
Variable set_frame_rate : AudioSegment -> Z -> AudioSegment.
Variable export : AudioSegment -> string -> string -> M unit.
Variable duration_seconds : AudioSegment -> float.
Variable read : string -> M bytes.
Variable long_running_recognize : RecognitionConfig -> bytes -> M RecognizeResponse.
Variable recognize : RecognitionConfig -> bytes -> M RecognizeResponse.
Variable save : FileStorage -> string -> M unit.

(** Lines 67-93: the request sent to the speech service. *)
Definition transcribe (duration_sec : float) (content : bytes) : M RecognizeResponse :=
  let audio := content in
  let diarization_config :=
    {| enable_speaker_diarization := true;
       min_speaker_count := 1;
       max_speaker_count := 20 |} in
  let config :=
    {| encoding := LINEAR16;
       sample_rate_hertz := 16000;
       language_code := "en-US";
       enable_word_time_offsets := true;
       enable_automatic_punctuation := true;
       diarization_config := diarization_config;
       model := "latest_long" |} in
  if gtb duration_sec 55%Q
  then long_running_recognize config audio
  else recognize (set_model config "latest_short") audio.

Definition process_audio_with_diarization (input_path : string) : M (list Segment) :=
  sound <~ from_file input_path ;;
  let sound := set_frame_rate (set_channels sound 1) 16000 in
  let processed_path := os_path_join UPLOAD_FOLDER "processed.wav" in
  _ <~ export sound processed_path "wav" ;;
  let duration_sec := duration_seconds sound in
  content <~ read processed_path ;;
  response <~ transcribe duration_sec content ;;
  lift (segments_of_response response duration_sec).

(** Lines 38-47: what the handler does once the three checks have
    passed. *)
Definition process_upload (file : FileStorage) : M Response :=
  let filepath := os_path_join UPLOAD_FOLDER (filename file) in
  _ <~ save file filepath ;;
  try_except
    (segments <~ process_audio_with_diarization filepath ;;
     ret {| body := segments_body segments; status := 200 |})
    (fun e => ret {| body := exception_body e; status := 500 |}).

Definition upload (request : Request) : M Response :=
  match lookup "file" (files request) with
  | None => ret {| body := error_body "No file part in request"; status := 400 |}
  | Some file =>
      if String.eqb (filename file) "" then
        ret {| body := error_body "No file selected"; status := 400 |}
      else
        allowed <~ lift (allowed_file (filename file)) ;;
        if negb allowed then
          ret {| body := error_body "Unsupported file type"; status := 400 |}
        else process_upload file
  end.

End Endpoint.

Arguments ret {World A} a.
Arguments lift {World A} r.

(** Stand-ins for the collaborators, to run the handler on an example: the
    world is the list of the paths written so far, an audio clip is its
    duration, and the speech service answers with a fixed response. *)
Module Stub.

Definition World : Type := list string.

Definition AudioSegment : Type := float.

Definition from_file (clip : AudioSegment) (path : string) : M World AudioSegment :=
  fun w => (Ok clip, w).

Definition set_channels (sound : AudioSegment) (n : Z) : AudioSegment := sound.

Definition set_frame_rate (sound : AudioSegment) (n : Z) : AudioSegment := sound.

Definition export (sound : AudioSegment) (path format : string) : M World unit :=
  fun w => (Ok tt, path :: w).

Definition duration_seconds (sound : AudioSegment) : float := sound.

Definition read (path : string) : M World bytes := fun w => (Ok [], w).

Definition answer (response : RecognizeResponse)
    (config : RecognitionConfig) (audio : bytes) : M World RecognizeResponse :=
  fun w => (Ok response, w).

Definition save (file : FileStorage) (path : string) : M World unit :=
  fun w => (Ok tt, path :: w).

(** The handler and what follows the checks, on a clip of half a second
    for which the service returns no results. *)
Definition upload (request : Request) : M World Response :=
  upload World AudioSegment (from_file (1 # 2)%Q) set_channels set_frame_rate
    export duration_seconds read (answer {| results := [] |})
    (answer {| results := [] |}) save request.

Definition process_upload (file : FileStorage) : M World Response :=
  process_upload World AudioSegment (from_file (1 # 2)%Q) set_channels
    set_frame_rate export duration_seconds read (answer {| results := [] |})
    (answer {| results := [] |}) save file.

End Stub.

(* ================================================================== *)
(** * Vocabulary for further properties of the code *)
(* ================================================================== *)

(** The label given to the speaker with tag [tag] (lines 131 and 149). *)
Definition speaker_label (tag : Z) : string :=
  ("Speaker " ++ str_of_int tag)%string.

(** One segment per run, in order. *)
Definition segments_of_runs (runs : list (list WordInfo)) : list Segment :=
  flat_map (fun r => match r with
                     | [] => []
                     | w :: r' => [segment_of_run w r']
                     end) runs.



(** A response and failing collaborators, to run the pipeline and the
    handler on examples. *)
Module Sample.

(** Two results; the last one carries three words of two speakers. *)
Definition response : RecognizeResponse :=
  {| results :=
       [ {| alternatives := [] |};
         {| alternatives :=
              [ {| transcript := "hi there yo";
                   words := [word_at 1 0 1 "hi"; word_at 1 1 2 "there";
                             word_at 2 2 3 "yo"] |} ] |} ] |}.



(** What follows the checks of the handler, likewise. *)
Definition process_upload (from_file : string -> M Stub.World Stub.AudioSegment)
    (recognize : RecognitionConfig -> bytes -> M Stub.World RecognizeResponse)
    (save : FileStorage -> string -> M Stub.World unit)
    (file : FileStorage) : M Stub.World Response :=
  process_upload Stub.World Stub.AudioSegment from_file Stub.set_channels
    Stub.set_frame_rate Stub.export Stub.duration_seconds Stub.read
    (Stub.answer {| results := [] |}) recognize save file.

End Sample.

(* ================================================================== *)
(** * Facts about the float operations *)
(* ================================================================== *)

Module FloatFacts.

Local Open Scope Q_scope.

Lemma Qcompare_Lt x y : Qcompare x y = Lt <-> x < y.
Proof. symmetry. apply Qlt_alt. Qed.

Lemma Qcompare_Gt x y : Qcompare x y = Gt <-> y < x.
Proof. symmetry. apply Qgt_alt. Qed.

Lemma Qcompare_Eq x y : Qcompare x y = Eq <-> x == y.
Proof. symmetry. apply Qeq_alt. Qed.

Ltac qcompare :=
  repeat match goal with
  | H : Qcompare _ _ = Datatypes.Lt |- _ => apply (proj1 (Qcompare_Lt _ _)) in H
  | H : Qcompare _ _ = Datatypes.Gt |- _ => apply (proj1 (Qcompare_Gt _ _)) in H
  | H : Qcompare _ _ = Datatypes.Eq |- _ => apply (proj1 (Qcompare_Eq _ _)) in H
  end.

(** ** Rounding to an integer *)

Lemma round_half_even_floor x :
  (Qfloor x <= round_half_even x <= Qfloor x + 1)%Z.
Proof.
  unfold round_half_even.
  destruct (Qcompare _ _); [destruct (Z.even _) | |]; lia.
Qed.

Lemma round_half_even_ge (z : Z) x : inject_Z z <= x -> (z <= round_half_even x)%Z.
Proof.
  intros H. apply Qfloor_resp_le in H. rewrite Qfloor_Z in H.
  pose proof (round_half_even_floor x). lia.
Qed.

Lemma round_half_even_le (z : Z) x : x <= inject_Z z -> (round_half_even x <= z)%Z.
Proof.
  intros H. pose proof (Qfloor_resp_le _ _ H) as Hf. rewrite Qfloor_Z in Hf.
  pose proof (round_half_even_floor x) as Hb.
  destruct (Z.eq_dec (Qfloor x) z) as [E | N]; [| lia].
  unfold round_half_even.
  destruct (Qcompare _ _) eqn:C; try lia.
  - qcompare. pose proof (Qfloor_le x). rewrite E in *. lra.
  - qcompare. pose proof (Qfloor_le x). rewrite E in *. lra.
Qed.

Lemma round_half_even_mono x y : x <= y -> (round_half_even x <= round_half_even y)%Z.
Proof.
  intros H. pose proof (Qfloor_resp_le _ _ H) as Hf.
  pose proof (round_half_even_floor x) as Hx.
  pose proof (round_half_even_floor y) as Hy.
  destruct (Z.eq_dec (Qfloor x) (Qfloor y)) as [E | N]; [| lia].
  unfold round_half_even in *. rewrite <- E in *. clear Hx Hy Hf.
  destruct (Qcompare (x - _) _) eqn:Cx; destruct (Qcompare (y - _) _) eqn:Cy;
    try (destruct (Z.even (Qfloor x))); try lia;
    exfalso; qcompare; lra.
Qed.

(** ** Powers of two *)

Lemma pow2_pos e : 0 < 2 ^ e.
Proof. apply Qpower_0_lt. reflexivity. Qed.

Lemma pow2_add a b : 2 ^ (a + b) == 2 ^ a * 2 ^ b.
Proof. apply Qpower_plus. discriminate. Qed.

Lemma pow2_split a b c : (a = b + c)%Z -> 2 ^ a == 2 ^ b * 2 ^ c.
Proof. intros ->. apply pow2_add. Qed.

Lemma pow2_le a b : (a <= b)%Z -> 2 ^ a <= 2 ^ b.
Proof. intros H. apply Qpower_le_compat_l; [exact H | discriminate]. Qed.

Lemma pow2_Z k : (0 <= k)%Z -> 2 ^ k == inject_Z (2 ^ k).
Proof. intros H. rewrite (Zpower_Qpower 2 k H). reflexivity. Qed.

Lemma pow2_sub_Z a b :
  (0 <= a)%Z -> (0 <= b)%Z -> 2 ^ (a - b) == inject_Z (2 ^ a) / inject_Z (2 ^ b).
Proof.
  intros Ha Hb. rewrite Qpower_minus by discriminate.
  rewrite (pow2_Z a Ha), (pow2_Z b Hb). reflexivity.
Qed.

(** ** The binade of a positive rational *)

Lemma ilog2_candidate n d :
  (0 < n)%Z ->
  let a := (Z.log2 n - Z.log2 (Zpos d))%Z in
  2 ^ (a - 1) <= n # d /\ n # d < 2 ^ (a + 1).
Proof.
  intros Hn a.
  destruct (Z.log2_spec n Hn) as [Hn1 Hn2].
  destruct (Z.log2_spec (Zpos d) (Pos2Z.is_pos d)) as [Hd1 Hd2].
  pose proof (Z.log2_nonneg n) as Ln.
  pose proof (Z.log2_nonneg (Zpos d)) as Ld.
  assert (P1 : (0 < 2 ^ Z.log2 (Zpos d))%Z) by (apply Z.pow_pos_nonneg; lia).
  assert (P2 : (0 < 2 ^ Z.succ (Z.log2 (Zpos d)))%Z) by (apply Z.pow_pos_nonneg; lia).
  split.
  - replace (a - 1)%Z with (Z.log2 n - Z.succ (Z.log2 (Zpos d)))%Z by (unfold a; lia).
    rewrite pow2_sub_Z by lia.
    apply Qle_shift_div_r.
    + change 0 with (inject_Z 0). rewrite <- Zlt_Qlt. exact P2.
    + unfold Qle, Qmult, inject_Z; cbn [Qnum Qden]. rewrite Pos.mul_1_r. nia.
  - replace (a + 1)%Z with (Z.succ (Z.log2 n) - Z.log2 (Zpos d))%Z by (unfold a; lia).
    rewrite pow2_sub_Z by lia.
    apply Qlt_shift_div_l.
    + change 0 with (inject_Z 0). rewrite <- Zlt_Qlt. exact P1.
    + unfold Qlt, Qmult, inject_Z; cbn [Qnum Qden]. rewrite Pos.mul_1_r. nia.
Qed.

Lemma ilog2_spec x : 0 < x -> 2 ^ ilog2 x <= x /\ x < 2 ^ (ilog2 x + 1).
Proof.
  intros Hx. destruct x as [n d].
  assert (Hn : (0 < n)%Z) by (unfold Qlt in Hx; simpl in Hx; lia).
  destruct (ilog2_candidate n d Hn) as [Hlo Hhi].
  unfold ilog2; cbn [Qnum Qden].
  destruct (Qle_bool _ _) eqn:B.
  - apply Qle_bool_iff in B. split; assumption.
  - split.
    + exact Hlo.
    + replace (_ - 1 + 1)%Z with (Z.log2 n - Z.log2 (Zpos d))%Z by lia.
      apply Qnot_le_lt. intros C. apply Qle_bool_iff in C. congruence.
Qed.

Lemma ilog2_mono x y : 0 < x -> x <= y -> (ilog2 x <= ilog2 y)%Z.
Proof.
  intros Hx Hxy.
  assert (Hy : 0 < y) by lra.
  destruct (ilog2_spec x Hx) as [Lx _].
  destruct (ilog2_spec y Hy) as [_ Uy].
  destruct (Z_le_gt_dec (ilog2 x) (ilog2 y)) as [? | G]; [assumption |].
  pose proof (pow2_le (ilog2 y + 1) (ilog2 x) ltac:(lia)). lra.
Qed.

(** ** Rounding to the nearest binary64 *)

Lemma nearest_pos_eq x :
  nearest_pos x ==
  inject_Z (round_half_even (x * 2 ^ (- (ilog2 x - (prec - 1))))) * 2 ^ (ilog2 x - (prec - 1)).
Proof. unfold nearest_pos. apply Qred_correct. Qed.

Lemma significand_range x :
  0 < x ->
  inject_Z (2 ^ (prec - 1)) <= x * 2 ^ (- (ilog2 x - (prec - 1))) /\
  x * 2 ^ (- (ilog2 x - (prec - 1))) <= inject_Z (2 ^ prec).
Proof.
  intros Hx. destruct (ilog2_spec x Hx) as [L U].
  pose proof (pow2_pos (- (ilog2 x - (prec - 1)))) as Hs.
  rewrite <- !pow2_Z by (unfold prec; lia).
  split.
  - rewrite (pow2_split (prec - 1) (ilog2 x) (- (ilog2 x - (prec - 1)))) by lia.
    apply Qmult_le_compat_r; [exact L | lra].
  - rewrite (pow2_split prec (ilog2 x + 1) (- (ilog2 x - (prec - 1)))) by lia.
    apply Qmult_le_compat_r; [lra | lra].
Qed.

Lemma significand_bounds x :
  0 < x ->
  (2 ^ (prec - 1) <= round_half_even (x * 2 ^ (- (ilog2 x - (prec - 1)))) <= 2 ^ prec)%Z.
Proof.
  intros Hx. destruct (significand_range x Hx) as [L U]. split.
  - apply round_half_even_ge, L.
  - apply round_half_even_le, U.
Qed.

Lemma nearest_pos_pos x : 0 < x -> 0 < nearest_pos x.
Proof.
  intros Hx. rewrite nearest_pos_eq.
  apply Qmult_lt_0_compat; [| apply pow2_pos].
  change 0 with (inject_Z 0). rewrite <- Zlt_Qlt.
  pose proof (significand_bounds x Hx) as [L _].
  unfold prec in *. change (2 ^ (53 - 1))%Z with 4503599627370496%Z in L. lia.
Qed.

Lemma nearest_pos_mono x y : 0 < x -> x <= y -> nearest_pos x <= nearest_pos y.
Proof.
  intros Hx Hxy.
  assert (Hy : 0 < y) by lra.
  rewrite (nearest_pos_eq x), (nearest_pos_eq y).
  pose proof (ilog2_mono x y Hx Hxy) as He.
  destruct (Z.eq_dec (ilog2 x) (ilog2 y)) as [E | N].
  - rewrite E. apply Qmult_le_compat_r; [| apply Qlt_le_weak, pow2_pos].
    rewrite <- Zle_Qle. apply round_half_even_mono.
    apply Qmult_le_compat_r; [exact Hxy | apply Qlt_le_weak, pow2_pos].
  - pose proof (significand_bounds x Hx) as [_ Ux].
    pose proof (significand_bounds y Hy) as [Ly _].
    rewrite Zle_Qle in Ux, Ly.
    rewrite <- !pow2_Z in Ux, Ly by (unfold prec; lia).
    set (mx := inject_Z (round_half_even (x * _))) in *.
    set (my := inject_Z (round_half_even (y * _))) in *.
    pose proof (pow2_pos (ilog2 x - (prec - 1))) as Px.
    pose proof (pow2_pos (ilog2 y - (prec - 1))) as Py.
    apply Qle_trans with (2 ^ prec * 2 ^ (ilog2 x - (prec - 1))).
    { apply Qmult_le_compat_r; [exact Ux | lra]. }
    apply Qle_trans with (2 ^ (prec - 1) * 2 ^ (ilog2 y - (prec - 1))).
    { rewrite <- !pow2_add. apply pow2_le. lia. }
    apply Qmult_le_compat_r; [exact Ly | lra].
Qed.

Lemma binary64_mono x y : x <= y -> binary64 x <= binary64 y.
Proof.
  intros Hxy. unfold binary64.
  destruct (Qcompare x 0) eqn:Cx; destruct (Qcompare y 0) eqn:Cy; qcompare;
    rewrite ?Qred_correct; try lra.
  - pose proof (nearest_pos_pos y Cy). lra.
  - pose proof (nearest_pos_pos (- x) ltac:(lra)). lra.
  - apply Qopp_le_compat. apply nearest_pos_mono; lra.
  - pose proof (nearest_pos_pos (- x) ltac:(lra)).
    pose proof (nearest_pos_pos y Cy). lra.
  - apply nearest_pos_mono; lra.
Qed.

(** Values Python prints: [round(2.675, 2) == 2.67] because the float 2.675
    lies below the decimal 2.675, and [round(0.125, 2) == 0.12] by the tie
    rule. *)
Example round2_2_675 : round2 (binary64 (2675 # 1000)) = binary64 (267 # 100).
Proof. vm_compute. reflexivity. Qed.

Example round2_0_125 : round2 (1 # 8) = binary64 (12 # 100).
Proof. vm_compute. reflexivity. Qed.

Example binary64_one_tenth :
  binary64 (1 # 10) = 3602879701896397 # 36028797018963968.
Proof. vm_compute. reflexivity. Qed.

Lemma round2_mono x y : x <= y -> round2 x <= round2 y.
Proof.
  intros Hxy. unfold round2. apply binary64_mono.
  apply Qmult_le_compat_r; [| discriminate].
  rewrite <- Zle_Qle. apply round_half_even_mono. lra.
Qed.

End FloatFacts.

(* ================================================================== *)
(** * Facts about list indexing *)
(* ================================================================== *)

Module IndexFacts.

Lemma getitem_nth {A} (l : list A) (n : nat) (a : A) :
  nth_error l n = Some a -> getitem l (Z.of_nat n) = Ok a.
Proof.
  intros H. unfold getitem.
  assert (n < List.length l)%nat by (apply nth_error_Some; congruence).
  replace (0 <=? Z.of_nat n) with true by (symmetry; apply Z.leb_le; lia).
  replace (Z.of_nat n <? Z.of_nat (List.length l)) with true
    by (symmetry; apply Z.ltb_lt; lia).
  cbn [andb]. rewrite Nat2Z.id, H. reflexivity.
Qed.

Lemma getitem_middle {A} (pre : list A) (a : A) (post : list A) :
  getitem (pre ++ a :: post) (Z.of_nat (List.length pre)) = Ok a.
Proof.
  apply getitem_nth. rewrite nth_error_app2 by lia.
  rewrite Nat.sub_diag. reflexivity.
Qed.

Lemma getitem_head {A} (a : A) (l : list A) : getitem (a :: l) 0 = Ok a.
Proof. apply (getitem_middle [] a l). Qed.

Lemma last_cons {A} (l : list A) (a b : A) : last (b :: l) a = last l b.
Proof.
  revert a b. induction l as [| c l IH]; intros a b; [reflexivity |].
  change (last (b :: c :: l) a) with (last (c :: l) a).
  rewrite (IH a c), (IH b c). reflexivity.
Qed.

Lemma nth_error_last {A} (l : list A) (a : A) :
  nth_error (a :: l) (List.length l) = Some (last l a).
Proof.
  revert a. induction l as [| b l IH]; intros a; [reflexivity |].
  cbn [List.length nth_error]. rewrite IH, last_cons. reflexivity.
Qed.

Lemma getitem_minus_one {A} (a : A) (l : list A) :
  getitem (a :: l) (-1) = Ok (last l a).
Proof.
  unfold getitem.
  set (n := Z.of_nat (List.length (a :: l))).
  assert (Hn : 1 <= n) by (unfold n; cbn [List.length]; lia).
  replace (0 <=? -1) with false by reflexivity. cbn [andb].
  replace (- n <=? -1) with true by (symmetry; apply Z.leb_le; lia).
  replace (-1 <? 0) with true by reflexivity. cbn [andb].
  replace (Z.to_nat (n + -1)) with (List.length l)
    by (unfold n; cbn [List.length]; lia).
  rewrite nth_error_last. reflexivity.
Qed.

End IndexFacts.

(* ================================================================== *)
(** * The loop computes the scan of the reference algorithm *)
(* ================================================================== *)

Module LoopFacts.

Import IndexFacts.

Lemma closed_segment_close_run st e :
  closed_segment st (total_seconds e) = Spec.close_run (run_of st) e.
Proof. reflexivity. Qed.

(** From any iteration on, the loop followed by the final close emits what
    the scan emits from the run held in the loop variables. *)
Lemma loop_scan (todo : list WordInfo) :
  forall (pre : list WordInfo) (prev : WordInfo) (st : LoopState),
  exists st',
    loop (pre ++ prev :: todo) (Z.of_nat (List.length pre) + 1) todo st = Ok st' /\
    segments st' ++ [closed_segment st' (total_seconds (end_time (last todo prev)))]
    = segments st ++ Spec.scan (run_of st) prev todo.
Proof.
  induction todo as [| w todo IH]; intros pre prev st.
  - exists st. split; reflexivity.
  - cbn [loop Spec.scan]. unfold loop_body.
    change (Spec.run_tag (run_of st)) with (current_speaker st).
    destruct (speaker_tag w =? current_speaker st) eqn:E; cbn [negb bind].
    + match goal with |- context [loop _ _ todo ?s] => set (st1 := s) end.
      destruct (IH (pre ++ [prev]) w st1) as [st' [Hl Hs]].
      rewrite <- app_assoc in Hl. cbn [app] in Hl.
      rewrite length_app in Hl. cbn [List.length] in Hl.
      replace (Z.of_nat (List.length pre + 1) + 1)
        with (Z.of_nat (List.length pre) + 1 + 1) in Hl by lia.
      exists st'. split; [exact Hl |].
      rewrite last_cons. exact Hs.
    + replace (Z.of_nat (List.length pre) + 1 - 1)
        with (Z.of_nat (List.length pre)) by lia.
      rewrite getitem_middle. cbn [bind].
      match goal with |- context [loop _ _ todo ?s] => set (st1 := s) end.
      destruct (IH (pre ++ [prev]) w st1) as [st' [Hl Hs]].
      rewrite <- app_assoc in Hl. cbn [app] in Hl.
      rewrite length_app in Hl. cbn [List.length] in Hl.
      replace (Z.of_nat (List.length pre + 1) + 1)
        with (Z.of_nat (List.length pre) + 1 + 1) in Hl by lia.
      exists st'. split; [exact Hl |].
      rewrite last_cons, Hs. unfold st1; cbn [segments].
      rewrite <- app_assoc. reflexivity.
Qed.

(** On a non-empty list the code returns the scan started at the first
    word. *)
Lemma build_segments_scan w0 rest fallback duration_sec :
  build_segments (w0 :: rest) fallback duration_sec
  = Ok (Spec.scan (Spec.new_run w0) w0 rest).
Proof.
  unfold build_segments, initial_state.
  rewrite getitem_head. cbn [bind loop]. unfold loop_body.
  cbn [current_speaker]. rewrite Z.eqb_refl. cbn [negb bind].
  match goal with |- context [loop _ _ rest ?s] => set (st1 := s) end.
  destruct (loop_scan rest [] w0 st1) as [st' [Hl Hs]].
  change (loop (w0 :: rest) (0 + 1) rest st1 = Ok st') in Hl.
  rewrite Hl. cbn [bind]. rewrite getitem_minus_one. cbn [bind].
  rewrite Hs. reflexivity.
Qed.

Lemma loop_app words (a : list WordInfo) :
  forall idx b st,
  loop words idx (a ++ b) st
  = (st' <- loop words idx a st ;;
     loop words (idx + Z.of_nat (List.length a)) b st').
Proof.
  induction a as [| w a IH]; intros idx b st.
  - cbn [app loop bind List.length]. f_equal. cbn. lia.
  - cbn [app loop]. destruct (loop_body words idx w st) as [st1 | e]; cbn [bind].
    + rewrite IH. cbn [List.length].
      replace (idx + 1 + Z.of_nat (List.length a))
        with (idx + Z.of_nat (S (List.length a))) by lia.
      reflexivity.
    + reflexivity.
Qed.

(** [state_after words n] is the state in which the run of the loop over
    [words] enters its iteration number [n]. *)
Lemma loop_through_state_after words n st0 :
  (n <= List.length words)%nat ->
  initial_state words = Ok st0 ->
  loop words 0 words st0
  = (st <- state_after words n ;; loop words (Z.of_nat n) (skipn n words) st).
Proof.
  intros Hn H0. unfold state_after. rewrite H0. cbn [bind].
  rewrite <- (firstn_skipn n words) at 2.
  rewrite loop_app, length_firstn, Nat.min_l by exact Hn. reflexivity.
Qed.

End LoopFacts.

(* ================================================================== *)
(** * Facts about [strip] and [join] *)
(* ================================================================== *)

Module StrFacts.

Local Open Scope string_scope.

Lemma lstrip_length s : (String.length (lstrip s) <= String.length s)%nat.
Proof.
  induction s as [| c s IH]; cbn [lstrip]; [lia |].
  destruct (is_space c); cbn [String.length] in *; lia.
Qed.

Lemma rstrip_length s : (String.length (rstrip s) <= String.length s)%nat.
Proof.
  induction s as [| c s IH]; cbn [rstrip]; [lia |].
  destruct (rstrip s); [destruct (is_space c) |]; cbn [String.length] in *; lia.
Qed.

(** A trimmed word starts with a character that is not whitespace and is
    unchanged by [rstrip]. *)
Lemma trimmed_word_inv s :
  trimmed_word s ->
  exists c s', s = String c s' /\ is_space c = false /\ rstrip s = s.
Proof.
  intros [Hne Hs]. destruct s as [| c s']; [congruence |].
  exists c, s'. unfold strip in Hs. cbn [lstrip] in Hs.
  destruct (is_space c) eqn:E.
  - exfalso.
    pose proof (rstrip_length (lstrip s')) as H1.
    pose proof (lstrip_length s') as H2.
    rewrite Hs in H1. cbn [String.length] in H1. lia.
  - auto.
Qed.

Lemma rstrip_app x b : rstrip b = b -> b <> "" -> rstrip (x ++ b) = x ++ b.
Proof.
  intros Hb Hne. induction x as [| c x IH]; [exact Hb |].
  cbn [append rstrip]. rewrite IH.
  destruct (x ++ b) eqn:E; [| reflexivity].
  destruct x; cbn [append] in E; congruence.
Qed.

Lemma join_cons sep a b l : join sep (a :: b :: l) = a ++ sep ++ join sep (b :: l).
Proof. reflexivity. Qed.

Lemma append_assoc (a b c : string) : (a ++ b) ++ c = a ++ (b ++ c).
Proof. induction a as [| x a IH]; cbn [append]; [reflexivity | now rewrite IH]. Qed.

Lemma append_nil_r (a : string) : a ++ "" = a.
Proof. induction a as [| x a IH]; cbn [append]; [reflexivity | now rewrite IH]. Qed.

Lemma join_app sep (l1 l2 : list string) :
  l1 <> [] -> l2 <> [] ->
  join sep (l1 ++ l2) = join sep l1 ++ sep ++ join sep l2.
Proof.
  intros H1 H2. induction l1 as [| a l1 IH]; [congruence |].
  destruct l1 as [| b l1].
  - destruct l2 as [| c l2]; [congruence |]. reflexivity.
  - change ((a :: b :: l1) ++ l2)%list with (a :: b :: (l1 ++ l2))%list.
    rewrite !join_cons.
    change (b :: (l1 ++ l2))%list with ((b :: l1) ++ l2)%list.
    rewrite IH by discriminate.
    rewrite !append_assoc. reflexivity.
Qed.

(** The join of trimmed words is itself trimmed. *)
Lemma strip_join (buf : list string) :
  buf <> [] -> Forall trimmed_word buf -> strip (join " " buf) = join " " buf.
Proof.
  intros Hne Hall.
  assert (Hr : rstrip (join " " buf) = join " " buf).
  { destruct (exists_last Hne) as [l [b ->]].
    apply Forall_app in Hall as [_ Hb].
    apply Forall_inv in Hb.
    destruct (trimmed_word_inv b Hb) as [c [b' [-> [_ Hrb]]]].
    destruct l as [| a l]; [exact Hrb |].
    rewrite join_app by discriminate.
    rewrite <- append_assoc. apply rstrip_app; [exact Hrb | discriminate]. }
  destruct buf as [| a l]; [congruence |].
  apply Forall_inv in Hall.
  destruct (trimmed_word_inv a Hall) as [c [a' [-> [Hc _]]]].
  unfold strip. replace (lstrip (join " " (String c a' :: l))) with (join " " (String c a' :: l)).
  - exact Hr.
  - destruct l; cbn [join String.concat append lstrip]; rewrite Hc; reflexivity.
Qed.

End StrFacts.

(* ================================================================== *)
(** * Facts about the scan *)
(* ================================================================== *)

Module ScanFacts.

Import IndexFacts StrFacts FloatFacts.

(** The run reached after the words [r] have continued the run [run]. *)
Lemma scan_same_speaker (r : list WordInfo) :
  forall run prev rest,
  Forall (fun x => speaker_tag x = Spec.run_tag run) r ->
  Spec.scan run prev (r ++ rest)
  = Spec.scan {| Spec.run_tag := Spec.run_tag run;
                 Spec.run_start := Spec.run_start run;
                 Spec.run_buffer := Spec.run_buffer run ++ map word r |}
              (last r prev) rest.
Proof.
  induction r as [| w r IH]; intros run prev rest Hall.
  - cbn [app map last]. rewrite app_nil_r. destruct run; reflexivity.
  - inversion Hall as [| ? ? Hw Hr]; subst.
    cbn [app Spec.scan]. rewrite Hw, Z.eqb_refl.
    rewrite (IH (Spec.extend_run run w) w rest Hr).
    rewrite last_cons. cbn [Spec.extend_run Spec.run_tag Spec.run_start Spec.run_buffer map].
    rewrite <- app_assoc. reflexivity.
Qed.

(** A run [w :: r] followed by a word of another speaker is closed there. *)
Lemma scan_run_closed w r w2 rest :
  Forall (fun x => speaker_tag x = speaker_tag w) r ->
  speaker_tag w2 <> speaker_tag w ->
  Spec.scan (Spec.new_run w) w (r ++ w2 :: rest)
  = segment_of_run w r :: Spec.scan (Spec.new_run w2) w2 rest.
Proof.
  intros Hall Hne.
  rewrite (scan_same_speaker r (Spec.new_run w) w (w2 :: rest) Hall).
  cbn [Spec.scan Spec.new_run Spec.run_tag].
  apply Z.eqb_neq in Hne. rewrite Hne. reflexivity.
Qed.

(** A run [w :: r] that ends the list is closed at the last word. *)
Lemma scan_run_final w r :
  Forall (fun x => speaker_tag x = speaker_tag w) r ->
  Spec.scan (Spec.new_run w) w r = [segment_of_run w r].
Proof.
  intros Hall.
  rewrite <- (app_nil_r r) at 1.
  rewrite (scan_same_speaker r (Spec.new_run w) w [] Hall). reflexivity.
Qed.

Lemma scan_not_nil run prev rest : Spec.scan run prev rest <> [].
Proof.
  revert run prev. induction rest as [| w rest IH]; intros run prev; cbn [Spec.scan].
  - discriminate.
  - destruct (speaker_tag w =? Spec.run_tag run); [apply IH | discriminate].
Qed.

(** ** Maximal runs *)

Lemma maximal_runs_head w ws :
  exists r rs, maximal_runs (w :: ws) = (w :: r) :: rs.
Proof.
  cbn [maximal_runs].
  destruct (maximal_runs ws) as [| [| w' r] rs]; eauto.
  destruct (speaker_tag w =? speaker_tag w'); eauto.
Qed.

Lemma maximal_runs_concat ws : List.concat (maximal_runs ws) = ws.
Proof.
  induction ws as [| w ws IH]; [reflexivity |].
  cbn [maximal_runs].
  destruct ws as [| w' ws']; [reflexivity |].
  destruct (maximal_runs_head w' ws') as [r [rs E]].
  rewrite E in *.
  destruct (speaker_tag w =? speaker_tag w'); cbn [List.concat app] in *; now rewrite IH.
Qed.

Lemma maximal_runs_uniform ws : Forall uniform_run (maximal_runs ws).
Proof.
  induction ws as [| w ws IH]; [constructor |].
  cbn [maximal_runs].
  destruct (maximal_runs ws) as [| [| w' r] rs].
  - repeat constructor.
  - repeat constructor.
  - inversion IH as [| ? ? Hu Hrs]; subst.
    destruct (speaker_tag w =? speaker_tag w') eqn:E.
    + apply Z.eqb_eq in E. constructor; [| exact Hrs].
      cbn [uniform_run] in *. constructor; [congruence |].
      eapply Forall_impl; [| exact Hu]. cbn. intros; congruence.
    + constructor; [cbn; constructor | exact IH].
Qed.

Lemma maximal_runs_separated ws : runs_separated (maximal_runs ws).
Proof.
  induction ws as [| w ws IH]; [exact I |].
  cbn [maximal_runs].
  pose proof (maximal_runs_uniform ws) as U.
  destruct (maximal_runs ws) as [| [| w' r] rs]; try exact I.
  destruct (speaker_tag w =? speaker_tag w') eqn:E.
  - apply Z.eqb_eq in E.
    destruct rs as [| [| w2 r2] rs]; try exact I.
    cbn [runs_separated] in *. destruct IH as [H1 H2]. split; [| exact H2].
    constructor; [| exact H1].
    inversion H1; subst. congruence.
  - apply Z.eqb_neq in E. cbn [runs_separated]. split; [| exact IH].
    repeat constructor. exact E.
Qed.

(** The scan emits one segment per maximal run. *)
Lemma scan_length rest :
  forall run w,
  Spec.run_tag run = speaker_tag w ->
  List.length (Spec.scan run w rest) = List.length (maximal_runs (w :: rest)).
Proof.
  induction rest as [| w' rest IH]; intros run w Htag; [reflexivity |].
  cbn [Spec.scan]. rewrite Htag.
  change (maximal_runs (w :: w' :: rest))
    with (match maximal_runs (w' :: rest) with
          | (x :: r) :: rs =>
              if speaker_tag w =? speaker_tag x
              then (w :: x :: r) :: rs else [w] :: (x :: r) :: rs
          | _ => [[w]]
          end).
  destruct (maximal_runs_head w' rest) as [r [rs E]].
  rewrite (Z.eqb_sym (speaker_tag w') (speaker_tag w)).
  destruct (speaker_tag w =? speaker_tag w') eqn:T.
  - rewrite (IH (Spec.extend_run run w') w').
    + rewrite E, T. reflexivity.
    + cbn. apply Z.eqb_eq in T. congruence.
  - cbn [List.length]. rewrite (IH (Spec.new_run w') w' eq_refl).
    rewrite E, T. reflexivity.
Qed.

(** ** The texts of the segments *)

Lemma scan_text rest :
  forall run prev,
  Spec.run_buffer run <> [] ->
  Forall trimmed_word (Spec.run_buffer run) ->
  Forall trimmed_word (map word rest) ->
  join " " (map text (Spec.scan run prev rest))
  = join " " (Spec.run_buffer run ++ map word rest).
Proof.
  induction rest as [| w rest IH]; intros run prev Hne Hbuf Hrest.
  - cbn [Spec.scan map Spec.close_run text]. rewrite app_nil_r.
    rewrite strip_join by assumption. reflexivity.
  - inversion Hrest as [| ? ? Hw Hrest']; subst. cbn [Spec.scan].
    destruct (speaker_tag w =? Spec.run_tag run).
    + rewrite IH.
      * cbn [Spec.extend_run Spec.run_buffer map]. rewrite <- app_assoc. reflexivity.
      * cbn. destruct (Spec.run_buffer run); discriminate.
      * cbn. apply Forall_app. split; [assumption |].
        constructor; [assumption | constructor].
      * assumption.
    + cbn [map Spec.close_run text].
      pose proof (scan_not_nil (Spec.new_run w) w rest) as Hs.
      destruct (Spec.scan (Spec.new_run w) w rest) as [| s1 ss] eqn:E; [congruence |].
      cbn [map]. rewrite join_cons. rewrite strip_join by assumption.
      change (text s1 :: map text ss) with (map text (s1 :: ss)). rewrite <- E.
      rewrite IH.
      * cbn [Spec.new_run Spec.run_buffer map app].
        rewrite join_app by (assumption || discriminate).
        reflexivity.
      * discriminate.
      * constructor; [assumption | constructor].
      * assumption.
Qed.

(** ** Start and end of the segments *)

Lemma total_seconds_mono (a b : timedelta) :
  a <= b -> (total_seconds a <= total_seconds b)%Q.
Proof.
  intros H. unfold total_seconds. apply binary64_mono.
  apply Qmult_le_compat_r; [| discriminate].
  rewrite <- Zle_Qle. exact H.
Qed.

Lemma scan_ordered rest :
  forall run prev s0,
  Spec.run_start run = total_seconds s0 ->
  s0 <= end_time prev ->
  Forall (fun w => s0 <= start_time w) rest ->
  Forall (fun w => start_time w <= end_time w) rest ->
  StronglySorted (fun a b => start_time a <= start_time b) rest ->
  Forall (fun s => Float.le (start s) (end_ s)) (Spec.scan run prev rest).
Proof.
  induction rest as [| w rest IH]; intros run prev s0 Hs Hprev Hge Hwf Hsorted.
  - repeat constructor. unfold Float.le. cbn [Spec.close_run start end_].
    rewrite Hs. apply round2_mono, total_seconds_mono, Hprev.
  - inversion Hge as [| ? ? Hw Hge']; subst.
    inversion Hwf as [| ? ? Hw2 Hwf']; subst.
    inversion Hsorted as [| ? ? Hsorted' Hall]; subst.
    cbn [Spec.scan]. destruct (speaker_tag w =? Spec.run_tag run).
    + apply (IH (Spec.extend_run run w) w s0); auto. lia.
    + constructor.
      * unfold Float.le. cbn [Spec.close_run start end_].
        rewrite Hs. apply round2_mono, total_seconds_mono, Hprev.
      * apply (IH (Spec.new_run w) w (start_time w)); auto.
Qed.

Lemma scan_rounded rest :
  forall run prev,
  Forall (fun s => rounded_2dp (start s) /\ rounded_2dp (end_ s))
         (Spec.scan run prev rest).
Proof.
  induction rest as [| w rest IH]; intros run prev; cbn [Spec.scan].
  - repeat constructor; eexists; reflexivity.
  - destruct (speaker_tag w =? Spec.run_tag run); [apply IH |].
    constructor; [| apply IH]. split; eexists; reflexivity.
Qed.

(** A value strictly between two neighbouring two-decimal floats is not
    the result of any [round(x, 2)]. *)
Lemma not_rounded_between (k : Z) (v : float) :
  (binary64 (inject_Z k / 100) < v)%Q ->
  (v < binary64 (inject_Z (k + 1) / 100))%Q ->
  ~ rounded_2dp v.
Proof.
  intros Hlo Hhi [x Hx]. unfold round2 in Hx.
  set (j := round_half_even (x * 100)) in Hx.
  assert (M : forall a b : Z, a <= b ->
            (binary64 (inject_Z a / 100) <= binary64 (inject_Z b / 100))%Q).
  { intros a b Hab. apply binary64_mono.
    apply Qmult_le_compat_r; [| discriminate]. rewrite <- Zle_Qle. exact Hab. }
  destruct (Z_le_gt_dec j k) as [L | G].
  - pose proof (M j k L) as H. rewrite <- Hx in H. lra.
  - pose proof (M (k + 1) j ltac:(lia)) as H. rewrite <- Hx in H. lra.
Qed.

End ScanFacts.

(* ================================================================== *)
(** * The segment builder *)
(* ================================================================== *)

Import IndexFacts LoopFacts ScanFacts StrFacts FloatFacts.

Lemma build_segments_total words fallback duration_sec :
  exists segs, build_segments words fallback duration_sec = Ok segs.
Proof.
  destruct words as [| w0 rest]; [eexists; reflexivity |].
  rewrite build_segments_scan. eexists; reflexivity.
Qed.

Lemma whole_seconds_rounded :
  round2 (total_seconds (0 * 1000000)) = 0%Q /\
  round2 (total_seconds (1 * 1000000)) = 1%Q /\
  round2 (total_seconds (2 * 1000000)) = 2%Q /\
  round2 (total_seconds (3 * 1000000)) = 3%Q.
Proof. vm_compute. repeat split; reflexivity. Qed.

(** C1: on a non-empty word list a run [w :: r] of one speaker is closed
    exactly at the next word [w2] with another tag: the segment emitted is
    labelled "Speaker {tag}", starts at the start of [w], ends at the end of
    the last word of the run (the word before [w2]) and carries the texts of
    the run joined by single spaces and trimmed; what follows is built from
    [w2] on.  A run that ends the list is closed the same way at the last
    word.  The words (A,0,1,"hi"), (A,1,2,"there"), (B,2,3,"yo") give the
    segments {Speaker A, 0.0, 2.0, "hi there"} and {Speaker B, 2.0, 3.0,
    "yo"}. *)
Theorem run_closed_at_speaker_change
    (w : WordInfo) (r : list WordInfo) (w2 : WordInfo) (rest : list WordInfo)
    (fallback : string) (duration_sec : float) (A B : Z) :
  Forall (fun x => speaker_tag x = speaker_tag w) r ->
  speaker_tag w2 <> speaker_tag w ->
  A <> B ->
  (exists tail,
      build_segments (w2 :: rest) fallback duration_sec = Ok tail /\
      build_segments (w :: r ++ w2 :: rest) fallback duration_sec
      = Ok (segment_of_run w r :: tail)) /\
  build_segments (w :: r) fallback duration_sec = Ok [segment_of_run w r] /\
  build_segments
    [word_at A 0 1 "hi"; word_at A 1 2 "there"; word_at B 2 3 "yo"]
    fallback duration_sec
  = Ok [ {| speaker := ("Speaker " ++ str_of_int A)%string;
            start := 0%Q; end_ := 2%Q; text := "hi there" |};
         {| speaker := ("Speaker " ++ str_of_int B)%string;
            start := 2%Q; end_ := 3%Q; text := "yo" |} ].
Proof.
  intros Hr Hw2 HAB. split; [| split].
  - exists (Spec.scan (Spec.new_run w2) w2 rest).
    rewrite !build_segments_scan, scan_run_closed by assumption. split; reflexivity.
  - rewrite build_segments_scan, scan_run_final by assumption. reflexivity.
  - rewrite build_segments_scan.
    pose proof (scan_run_closed (word_at A 0 1 "hi") [word_at A 1 2 "there"]
                  (word_at B 2 3 "yo") []) as H.
    cbn [app] in H. rewrite H.
    + rewrite (scan_run_final (word_at B 2 3 "yo") []) by constructor.
      destruct whole_seconds_rounded as [R0 [R1 [R2 R3]]].
      unfold segment_of_run.
      cbn [word_at speaker_tag start_time end_time word last map].
      rewrite R0, R2, R3. reflexivity.
    + repeat constructor.
    + cbn. congruence.
Qed.

Lemma run_closed_at_speaker_change_witness :
  build_segments
    [word_at 1 0 1 "hi"; word_at 1 1 2 "there"; word_at 2 2 3 "yo"] "" 0%Q
  = Ok [ {| speaker := "Speaker 1"; start := 0%Q; end_ := 2%Q; text := "hi there" |};
         {| speaker := "Speaker 2"; start := 2%Q; end_ := 3%Q; text := "yo" |} ].
Proof.
  apply (run_closed_at_speaker_change
           (word_at 1 0 1 "hi") [word_at 1 1 2 "there"] (word_at 2 2 3 "yo") []
           "" 0%Q 1 2).
  - repeat constructor.
  - cbn. lia.
  - lia.
Defined.

(** C2: an empty word list gives exactly one segment, labelled "unknown",
    from 0.0 to the total duration, whose text is the fallback transcript
    stripped of surrounding whitespace; with the transcript "hello world"
    and the duration 12.34 this is {unknown, 0.0, 12.34, "hello world"}. *)
Theorem empty_words_fallback (fallback : string) (duration_sec : float) :
  build_segments [] fallback duration_sec
  = Ok [ {| speaker := "unknown"; start := 0%Q; end_ := duration_sec;
            text := strip fallback |} ] /\
  build_segments [] "hello world" (binary64 (1234 # 100))
  = Ok [ {| speaker := "unknown"; start := 0%Q; end_ := binary64 (1234 # 100);
            text := "hello world" |} ].
Proof. split; reflexivity. Qed.

(** C3: on a non-empty word list the number of segments is the number of
    maximal runs of consecutive equal speaker tags, where the maximal runs
    split the list into non-empty runs of one tag each such that adjacent
    runs differ in tag.  Runs of one speaker that are not adjacent are not
    merged: three words with tags A, B, A give three segments. *)
Theorem segment_count_is_run_count
    (words : list WordInfo) (fallback : string) (duration_sec : float)
    (wa wb wc : WordInfo) :
  words <> [] ->
  speaker_tag wb <> speaker_tag wa ->
  speaker_tag wc = speaker_tag wa ->
  (exists segs,
      build_segments words fallback duration_sec = Ok segs /\
      List.length segs = List.length (maximal_runs words)) /\
  (List.concat (maximal_runs words) = words /\
   Forall uniform_run (maximal_runs words) /\
   runs_separated (maximal_runs words)) /\
  build_segments [wa; wb; wc] fallback duration_sec
  = Ok [segment_of_run wa []; segment_of_run wb []; segment_of_run wc []].
Proof.
  intros Hne Hab Hca. split; [| split].
  - destruct words as [| w0 rest]; [congruence |].
    rewrite build_segments_scan. eexists. split; [reflexivity |].
    apply scan_length. reflexivity.
  - split; [apply maximal_runs_concat |].
    split; [apply maximal_runs_uniform | apply maximal_runs_separated].
  - rewrite build_segments_scan.
    pose proof (scan_run_closed wa [] wb [wc]) as H1. cbn [app] in H1.
    pose proof (scan_run_closed wb [] wc []) as H2. cbn [app] in H2.
    rewrite H1, H2 by (constructor || congruence).
    rewrite (scan_run_final wc []) by constructor. reflexivity.
Qed.

Lemma segment_count_is_run_count_witness :
  exists segs,
    build_segments [word_at 1 0 1 "a"; word_at 2 1 2 "b"; word_at 1 2 3 "c"] "" 0%Q
    = Ok segs /\
    List.length segs = 3%nat.
Proof.
  destruct (segment_count_is_run_count
              [word_at 1 0 1 "a"; word_at 2 1 2 "b"; word_at 1 2 3 "c"] "" 0%Q
              (word_at 1 0 1 "a") (word_at 2 1 2 "b") (word_at 1 2 3 "c"))
    as [[segs [Hb Hl]] _].
  - discriminate.
  - cbn. lia.
  - reflexivity.
  - exists segs. split; [exact Hb | exact Hl].
Defined.

(** C4, as stated, fails: the text of a segment is trimmed, so an empty
    word text at the start of a run is lost.  With the words "hi" (speaker
    1), "" and "yo" (speaker 2) the segment texts joined by single spaces
    are "hi yo", the word texts joined by single spaces are "hi  yo". *)
Lemma texts_not_reproduced_with_empty_word :
  let words := [word_at 1 0 1 "hi"; word_at 2 1 2 ""; word_at 2 2 3 "yo"] in
  exists segs,
    build_segments words "" 0%Q = Ok segs /\
    join " " (map text segs) = "hi yo"%string /\
    join " " (map word words) = "hi  yo"%string /\
    join " " (map text segs) <> join " " (map word words).
Proof.
  eexists. split; [vm_compute; reflexivity |].
  split; [reflexivity |]. split; [reflexivity |]. discriminate.
Qed.

(** C4, amended: on a non-empty word list in which every word text is
    non-empty and has no whitespace at its start or end, the segment texts
    joined in order by single spaces are the word texts joined in order by
    single spaces. *)
Theorem texts_reproduce_words
    (words : list WordInfo) (fallback : string) (duration_sec : float) :
  words <> [] ->
  Forall (fun w => trimmed_word (word w)) words ->
  exists segs,
    build_segments words fallback duration_sec = Ok segs /\
    join " " (map text segs) = join " " (map word words).
Proof.
  intros Hne Hall. destruct words as [| w0 rest]; [congruence |].
  rewrite build_segments_scan. eexists. split; [reflexivity |].
  inversion Hall as [| ? ? H0 Hrest]; subst.
  rewrite scan_text.
  - reflexivity.
  - discriminate.
  - constructor; [exact H0 | constructor].
  - apply Forall_map. exact Hrest.
Qed.

Lemma texts_reproduce_words_witness :
  exists segs,
    build_segments [word_at 1 0 1 "hi"; word_at 1 1 2 "there"; word_at 2 2 3 "yo"]
      "" 0%Q = Ok segs /\
    join " " (map text segs) = "hi there yo"%string.
Proof.
  apply (texts_reproduce_words
           [word_at 1 0 1 "hi"; word_at 1 1 2 "there"; word_at 2 2 3 "yo"] "" 0%Q).
  - discriminate.
  - repeat constructor; discriminate.
Defined.

(** C5: when every word starts no later than it ends, the words are in
    non-decreasing order of start time and the total duration is not
    negative, every segment returned has [start <= end]. *)
Theorem segments_start_before_end
    (words : list WordInfo) (fallback : string) (duration_sec : float) :
  well_timed words ->
  Float.le 0%Q duration_sec ->
  exists segs,
    build_segments words fallback duration_sec = Ok segs /\
    Forall (fun s => Float.le (start s) (end_ s)) segs.
Proof.
  intros [Hwf Hsorted] Hd. destruct words as [| w0 rest].
  - eexists. split; [reflexivity |]. repeat constructor. exact Hd.
  - rewrite build_segments_scan. eexists. split; [reflexivity |].
    apply Sorted_StronglySorted in Hsorted; [| intros a b c; lia].
    inversion Hwf as [| ? ? H0 Hwf']; subst.
    inversion Hsorted as [| ? ? Hs' Hall]; subst.
    apply (scan_ordered rest (Spec.new_run w0) w0 (start_time w0)); auto.
Qed.

Lemma segments_start_before_end_witness :
  exists segs,
    build_segments [word_at 1 0 1 "hi"; word_at 1 1 2 "there"; word_at 2 2 3 "yo"]
      "" 0%Q = Ok segs /\
    Forall (fun s => Float.le (start s) (end_ s)) segs.
Proof.
  apply (segments_start_before_end
           [word_at 1 0 1 "hi"; word_at 1 1 2 "there"; word_at 2 2 3 "yo"] "" 0%Q).
  - split; repeat constructor; cbn; lia.
  - unfold Float.le. apply Qle_refl.
Defined.

(** C6, as stated, fails on the fallback segment: its end is the duration
    as it was passed in.  For a clip of 12.125 seconds and no words the end
    is 12.125, which no [round(x, 2)] returns. *)
Lemma fallback_end_not_rounded :
  exists seg,
    build_segments [] "hello world" (97 # 8) = Ok [seg] /\
    end_ seg = (97 # 8) /\
    ~ rounded_2dp (end_ seg).
Proof.
  eexists. split; [reflexivity |]. split; [reflexivity |].
  cbn [end_]. apply (not_rounded_between 1212); vm_compute; reflexivity.
Qed.

(** C6, amended: every start and end of a segment built from a non-empty
    word list is a result of [round(x, 2)]; the fallback segment of an empty
    word list starts at 0.0, which is such a result, and ends at the total
    duration as it was passed in. *)
Theorem segment_times_rounded
    (words : list WordInfo) (fallback : string) (duration_sec : float) :
  (words <> [] ->
   exists segs,
     build_segments words fallback duration_sec = Ok segs /\
     Forall (fun s => rounded_2dp (start s) /\ rounded_2dp (end_ s)) segs) /\
  (words = [] ->
   exists seg,
     build_segments words fallback duration_sec = Ok [seg] /\
     start seg = 0%Q /\ rounded_2dp (start seg) /\ end_ seg = duration_sec).
Proof.
  split.
  - intros Hne. destruct words as [| w0 rest]; [congruence |].
    rewrite build_segments_scan. eexists. split; [reflexivity |].
    apply scan_rounded.
  - intros ->. eexists. split; [reflexivity |].
    split; [reflexivity |]. split; [| reflexivity].
    exists 0%Q. reflexivity.
Qed.

Lemma segment_times_rounded_witness :
  exists segs,
    build_segments [word_at 1 0 1 "hi"; word_at 1 1 2 "there"; word_at 2 2 3 "yo"]
      "" 0%Q = Ok segs /\
    Forall (fun s => rounded_2dp (start s) /\ rounded_2dp (end_ s)) segs.
Proof.
  apply (proj1 (segment_times_rounded
                  [word_at 1 0 1 "hi"; word_at 1 1 2 "there"; word_at 2 2 3 "yo"]
                  "" 0%Q)).
  discriminate.
Defined.

(** C7: the loop of the code, which starts from an empty buffer and visits
    every word including the first, returns what the reference algorithm of
    the specification returns, which starts from the buffer holding the
    first word's text and visits the words after the first. *)
Theorem code_equals_reference
    (words : list WordInfo) (fallback : string) (duration_sec : float) :
  build_segments words fallback duration_sec
  = Ok (Spec.build_segments words fallback duration_sec).
Proof.
  destruct words as [| w0 rest]; [reflexivity |].
  apply build_segments_scan.
Qed.

(** C10: in the loop the word at index [idx - 1] is read only where it
    exists.  The state the loop starts from holds the tag of the first word,
    so the speaker-change branch is not taken at [idx = 0]; whenever it is
    taken, at the [n]-th iteration, [n - 1] is a valid non-negative index,
    the lookup returns the word just before, and the builder returns
    without an [IndexError]. *)
Theorem predecessor_lookup_in_bounds
    (words : list WordInfo) (n : nat) (st : LoopState) (w : WordInfo)
    (fallback : string) (duration_sec : float) :
  words <> [] ->
  state_after words n = Ok st ->
  nth_error words n = Some w ->
  speaker_tag w <> current_speaker st ->
  (1 <= n)%nat /\
  0 <= Z.of_nat n - 1 < Z.of_nat (List.length words) /\
  (exists p, nth_error words (n - 1) = Some p /\
             getitem words (Z.of_nat n - 1) = Ok p) /\
  (exists segs, build_segments words fallback duration_sec = Ok segs).
Proof.
  intros Hne Hst Hn Htag.
  assert (Hlen : (n < List.length words)%nat) by (apply nth_error_Some; congruence).
  destruct n as [| m].
  - exfalso. destruct words as [| w0 rest]; [congruence |].
    unfold state_after, initial_state in Hst. rewrite getitem_head in Hst.
    cbn in Hst, Hn. inversion Hst; subst. inversion Hn; subst.
    cbn in Htag. congruence.
  - split; [lia |]. split; [lia |]. split; [| apply build_segments_total].
    destruct (nth_error words m) as [p |] eqn:Hp.
    + exists p. replace (S m - 1)%nat with m by lia.
      split; [exact Hp |].
      replace (Z.of_nat (S m) - 1) with (Z.of_nat m) by lia.
      apply getitem_nth, Hp.
    + apply nth_error_None in Hp. lia.
Qed.

Lemma predecessor_lookup_in_bounds_witness :
  exists p,
    nth_error [word_at 1 0 1 "hi"; word_at 2 1 2 "yo"] (1 - 1) = Some p /\
    getitem [word_at 1 0 1 "hi"; word_at 2 1 2 "yo"] (Z.of_nat 1 - 1) = Ok p.
Proof.
  refine (proj1 (proj2 (proj2
    (predecessor_lookup_in_bounds
       [word_at 1 0 1 "hi"; word_at 2 1 2 "yo"] 1
       {| segments := []; current_speaker := 1;
          current_start := total_seconds 0; current_words := ["hi"%string] |}
       (word_at 2 1 2 "yo") "" 0%Q _ _ _ _)))).
  - discriminate.
  - reflexivity.
  - reflexivity.
  - cbn. lia.
Defined.

(* ================================================================== *)
(** * The upload endpoint *)
(* ================================================================== *)

Module UploadFacts.

Import IndexFacts.

Lemma split_last_none c s : split_last c s = None <-> contains c s = false.
Proof.
  induction s as [| a s IH]; cbn [split_last contains]; [tauto |].
  destruct (split_last c s) as [[h t] |].
  - split; [discriminate |]. intros H. apply orb_false_iff in H as [_ H].
    apply IH in H. discriminate.
  - destruct (Ascii.eqb a c); cbn [orb].
    + split; discriminate.
    + split; [intros _; apply IH; reflexivity | reflexivity].
Qed.

(** [split_last] cuts at the last occurrence of the character. *)
Lemma split_last_some c s h t :
  split_last c s = Some (h, t) ->
  s = (h ++ String c t)%string /\ contains c t = false.
Proof.
  revert h t. induction s as [| a s IH]; intros h t H; cbn [split_last] in H;
    [discriminate |].
  destruct (split_last c s) as [[h' t'] |] eqn:E.
  - inversion H; subst. destruct (IH h' t eq_refl) as [-> Hc].
    split; [reflexivity | exact Hc].
  - destruct (Ascii.eqb a c) eqn:A; [| discriminate].
    inversion H; subst. apply Ascii.eqb_eq in A. subst a.
    split; [reflexivity | apply split_last_none, E].
Qed.

Lemma existsb_eqb_In (x : string) (l : list string) :
  existsb (String.eqb x) l = true <-> In x l.
Proof.
  rewrite existsb_exists. split.
  - intros [y [Hin Heq]]. apply String.eqb_eq in Heq. congruence.
  - intros Hin. exists x. split; [exact Hin | apply String.eqb_refl].
Qed.

(** [allowed_file] never raises: it tests the lower-cased extension. *)
Lemma allowed_file_extension filename :
  allowed_file filename
  = Ok match extension filename with
       | Some ext => existsb (String.eqb (lower ext)) ALLOWED_EXTENSIONS
       | None => false
       end.
Proof.
  unfold allowed_file, extension, rsplit1.
  destruct (split_last "." filename) as [[h t] |] eqn:E.
  - assert (C : contains "." filename = true).
    { destruct (contains "." filename) eqn:C; [reflexivity |].
      apply split_last_none in C. congruence. }
    rewrite C. reflexivity.
  - apply split_last_none in E. rewrite E. reflexivity.
Qed.

Section WithCollaborators.

Context (World AudioSegment : Type).
Context (from_file : string -> M World AudioSegment).
Context (set_channels set_frame_rate : AudioSegment -> Z -> AudioSegment).
Context (export : AudioSegment -> string -> string -> M World unit).
Context (duration_seconds : AudioSegment -> float).
Context (read : string -> M World bytes).
Context (long_running_recognize recognize :
           RecognitionConfig -> bytes -> M World RecognizeResponse).
Context (save : FileStorage -> string -> M World unit).

Local Abbreviation process_audio :=
  (process_audio_with_diarization World AudioSegment from_file set_channels
     set_frame_rate export duration_seconds read long_running_recognize recognize).
Local Abbreviation handle_upload :=
  (upload World AudioSegment from_file set_channels set_frame_rate export
     duration_seconds read long_running_recognize recognize save).
Local Abbreviation after_checks :=
  (process_upload World AudioSegment from_file set_channels set_frame_rate export
     duration_seconds read long_running_recognize recognize save).

(** C8: when the speech service answers with no results, the pipeline
    returns the empty list of segments and raises nothing, and the handler
    answers 200 with an empty "segments" list. *)
Theorem no_results_give_empty_list
    (input_path : string) (sound0 : AudioSegment) (content : bytes)
    (file : FileStorage) (w w0 w1 w2 w3 w4 : World) :
  let sound := set_frame_rate (set_channels sound0 1) 16000 in
  let processed_path := os_path_join UPLOAD_FOLDER "processed.wav" in
  input_path = os_path_join UPLOAD_FOLDER (filename file) ->
  save file input_path w = (Ok tt, w0) ->
  from_file input_path w0 = (Ok sound0, w1) ->
  export sound processed_path "wav" w1 = (Ok tt, w2) ->
  read processed_path w2 = (Ok content, w3) ->
  transcribe World long_running_recognize recognize
    (duration_seconds sound) content w3 = (Ok {| results := [] |}, w4) ->
  segments_of_response {| results := [] |} (duration_seconds sound) = Ok [] /\
  process_audio input_path w0 = (Ok [], w4) /\
  after_checks file w
  = (Ok {| body := segments_body []; status := 200 |}, w4).
Proof.
  intros sound processed_path Hpath Hsave Hfrom Hexport Hread Htrans.
  assert (P : process_audio input_path w0 = (Ok [], w4)).
  { unfold process_audio_with_diarization, bindM.
    rewrite Hfrom. fold sound. fold processed_path.
    rewrite Hexport, Hread, Htrans. reflexivity. }
  split; [reflexivity |]. split; [exact P |].
  unfold process_upload, bindM, try_except. rewrite <- Hpath, Hsave.
  unfold bindM in P |- *. rewrite P. reflexivity.
Qed.

(** C9: the handler answers 400 "No file part in request" when the
    request has no "file" field, 400 "No file selected" when the file name
    is empty, and 400 "Unsupported file type" when the file name has no
    extension or one that, in lower case, is not wav, mp3, flac or m4a, as
    for "song.xyz"; in these cases nothing is saved or processed.  It goes
    on to save and process the file exactly when the three checks pass. *)
Theorem upload_validation (request : Request) (file : FileStorage) (w : World) :
  (lookup "file" (files request) = None ->
   handle_upload request w
   = (Ok {| body := error_body "No file part in request"; status := 400 |}, w)) /\
  (lookup "file" (files request) = Some file ->
   filename file = EmptyString ->
   handle_upload request w
   = (Ok {| body := error_body "No file selected"; status := 400 |}, w)) /\
  (lookup "file" (files request) = Some file ->
   filename file <> EmptyString ->
   (forall ext, extension (filename file) = Some ext ->
                ~ In (lower ext) ALLOWED_EXTENSIONS) ->
   handle_upload request w
   = (Ok {| body := error_body "Unsupported file type"; status := 400 |}, w)) /\
  (lookup "file" (files request) = Some file ->
   filename file = "song.xyz"%string ->
   handle_upload request w
   = (Ok {| body := error_body "Unsupported file type"; status := 400 |}, w)) /\
  (lookup "file" (files request) = Some file ->
   filename file <> EmptyString ->
   (exists ext, extension (filename file) = Some ext /\
                In (lower ext) ALLOWED_EXTENSIONS) ->
   handle_upload request w = after_checks file w) /\
  ((exists msg,
      In msg ["No file part in request"; "No file selected";
              "Unsupported file type"]%string /\
      handle_upload request w
      = (Ok {| body := error_body msg; status := 400 |}, w)) \/
   (exists f ext,
      lookup "file" (files request) = Some f /\
      filename f <> EmptyString /\
      extension (filename f) = Some ext /\
      In (lower ext) ALLOWED_EXTENSIONS /\
      handle_upload request w = after_checks f w)).
Proof.
  unfold upload. split; [| split; [| split; [| split; [| split]]]].
  - intros ->. reflexivity.
  - intros -> ->. reflexivity.
  - intros -> Hne Hext.
    apply String.eqb_neq in Hne. rewrite Hne.
    unfold bindM, lift. rewrite allowed_file_extension.
    destruct (extension (filename file)) as [ext |] eqn:E; [| reflexivity].
    destruct (existsb _ _) eqn:X; [| reflexivity].
    apply existsb_eqb_In in X. destruct (Hext ext eq_refl X).
  - intros -> ->. reflexivity.
  - intros -> Hne [ext [E Hin]].
    apply String.eqb_neq in Hne. rewrite Hne.
    unfold bindM, lift. rewrite allowed_file_extension, E.
    apply existsb_eqb_In in Hin. rewrite Hin. reflexivity.
  - destruct (lookup "file" (files request)) as [f |].
    2: { left. eexists. split; [| reflexivity]. cbn; auto. }
    destruct (String.eqb (filename f) "") eqn:Hname.
    { left. eexists. split; [| reflexivity]. cbn; auto. }
    unfold bindM, lift. rewrite allowed_file_extension.
    destruct (extension (filename f)) as [ext |] eqn:E.
    2: { left. eexists. split; [| reflexivity]. cbn; auto. }
    destruct (existsb _ _) eqn:X.
    + right. exists f, ext. apply String.eqb_neq in Hname.
      apply existsb_eqb_In in X. auto.
    + left. eexists. split; [| reflexivity]. cbn; auto.
Qed.

End WithCollaborators.

Lemma no_results_give_empty_list_witness :
  Stub.process_upload {| filename := "talk.wav"; stream := [] |} []
  = (Ok {| body := segments_body []; status := 200 |},
     ["uploads/processed.wav"; "uploads/talk.wav"]%string).
Proof.
  apply (proj2 (proj2
    (no_results_give_empty_list Stub.World Stub.AudioSegment
       (Stub.from_file (1 # 2)%Q) Stub.set_channels Stub.set_frame_rate
       Stub.export Stub.duration_seconds Stub.read
       (Stub.answer {| results := [] |}) (Stub.answer {| results := [] |})
       Stub.save
       "uploads/talk.wav" (1 # 2)%Q [] {| filename := "talk.wav"; stream := [] |}
       [] ["uploads/talk.wav"%string] ["uploads/talk.wav"%string]
       ["uploads/processed.wav"; "uploads/talk.wav"]%string
       ["uploads/processed.wav"; "uploads/talk.wav"]%string
       ["uploads/processed.wav"; "uploads/talk.wav"]%string
       eq_refl eq_refl eq_refl eq_refl eq_refl eq_refl))).
Defined.

Lemma upload_validation_witness :
  Stub.upload
    {| files := [("file"%string, {| filename := "song.xyz"; stream := [] |})] |} []
  = (Ok {| body := error_body "Unsupported file type"; status := 400 |}, []) /\
  Stub.upload
    {| files := [("file"%string, {| filename := "talk.WAV"; stream := [] |})] |} []
  = Stub.process_upload {| filename := "talk.WAV"; stream := [] |} [].
Proof.
  split.
  - apply (proj1 (proj2 (proj2
      (upload_validation Stub.World Stub.AudioSegment
         (Stub.from_file (1 # 2)%Q) Stub.set_channels Stub.set_frame_rate
         Stub.export Stub.duration_seconds Stub.read
         (Stub.answer {| results := [] |}) (Stub.answer {| results := [] |})
         Stub.save
         {| files := [("file"%string, {| filename := "song.xyz"; stream := [] |})] |}
         {| filename := "song.xyz"; stream := [] |} [])))).
    + reflexivity.
    + discriminate.
    + intros ext E. inversion E; subst. cbn. intuition discriminate.
  - apply (proj1 (proj2 (proj2 (proj2 (proj2
      (upload_validation Stub.World Stub.AudioSegment
         (Stub.from_file (1 # 2)%Q) Stub.set_channels Stub.set_frame_rate
         Stub.export Stub.duration_seconds Stub.read
         (Stub.answer {| results := [] |}) (Stub.answer {| results := [] |})
         Stub.save
         {| files := [("file"%string, {| filename := "talk.WAV"; stream := [] |})] |}
         {| filename := "talk.WAV"; stream := [] |} [])))))).
    + reflexivity.
    + discriminate.
    + exists "WAV"%string. split; [reflexivity |]. cbn. auto.
Defined.

End UploadFacts.

(* ================================================================== *)
(** * Further properties: the extension filter *)
(* ================================================================== *)

Module FilterFacts.

Import UploadFacts.

Local Open Scope string_scope.

Lemma split_last_app c h t :
  contains c t = false -> split_last c (h ++ String c t) = Some (h, t).
Proof.
  intros Ht. apply split_last_none in Ht.
  induction h as [| a h IH]; cbn [append split_last].
  - rewrite Ht, Ascii.eqb_refl. reflexivity.
  - rewrite IH. reflexivity.
Qed.

Lemma lower_char_idempotent c : lower_char (lower_char c) = lower_char c.
Proof. destruct c as [[] [] [] [] [] [] [] []]; reflexivity. Qed.

Lemma lower_idempotent s : lower (lower s) = lower s.
Proof.
  induction s as [| c s IH]; cbn [lower]; [reflexivity |].
  now rewrite lower_char_idempotent, IH.
Qed.

Lemma lower_char_dot c : Ascii.eqb (lower_char c) "." = Ascii.eqb c ".".
Proof. destruct c as [[] [] [] [] [] [] [] []]; reflexivity. Qed.

Lemma contains_dot_lower s : contains "." (lower s) = contains "." s.
Proof.
  induction s as [| c s IH]; cbn [lower contains]; [reflexivity |].
  now rewrite lower_char_dot, IH.
Qed.

Lemma allowed_file_split stem ext :
  contains "." ext = false ->
  allowed_file (stem ++ String "." ext)
  = Ok (existsb (String.eqb (lower ext)) ALLOWED_EXTENSIONS).
Proof.
  intros H. rewrite allowed_file_extension. unfold extension.
  rewrite split_last_app by exact H. reflexivity.
Qed.

End FilterFacts.

Import FilterFacts.

(** X1: [allowed_file] never raises, and it accepts exactly the names
    [stem ++ "." ++ ext] in which [ext] has no dot and, in lower case, is
    one of wav, mp3, flac, m4a. *)
Theorem allowed_file_accepts_iff (filename : string) :
  (exists b, allowed_file filename = Ok b) /\
  (allowed_file filename = Ok true <->
   exists stem ext,
     filename = (stem ++ "." ++ ext)%string /\
     contains "." ext = false /\
     In (lower ext) ALLOWED_EXTENSIONS).
Proof.
  split; [rewrite UploadFacts.allowed_file_extension; eexists; reflexivity |].
  split.
  - rewrite UploadFacts.allowed_file_extension. unfold extension.
    destruct (split_last "." filename) as [[h t] |] eqn:E; [| discriminate].
    intros H.
    assert (X : existsb (String.eqb (lower t)) ALLOWED_EXTENSIONS = true)
      by congruence.
    apply UploadFacts.existsb_eqb_In in X.
    destruct (UploadFacts.split_last_some _ _ _ _ E) as [-> Hc].
    exists h, t. auto.
  - intros [stem [ext [-> [Hc Hin]]]].
    change (stem ++ "." ++ ext)%string with (stem ++ String "." ext)%string.
    rewrite allowed_file_split by exact Hc.
    apply UploadFacts.existsb_eqb_In in Hin. rewrite Hin. reflexivity.
Qed.

(** X2: what precedes a name that has a dot does not matter: a directory
    or any other prefix leaves the verdict of [allowed_file] unchanged. *)
Theorem allowed_file_ignores_prefix (prefix name : string) :
  contains "." name = true ->
  allowed_file (prefix ++ name) = allowed_file name.
Proof.
  intros H.
  destruct (split_last "." name) as [[h t] |] eqn:E.
  - destruct (UploadFacts.split_last_some _ _ _ _ E) as [-> Hc].
    rewrite <- StrFacts.append_assoc.
    rewrite !allowed_file_split by exact Hc. reflexivity.
  - apply UploadFacts.split_last_none in E. congruence.
Qed.

Lemma allowed_file_ignores_prefix_witness :
  allowed_file "uploads/2024/talk.mp3" = allowed_file "talk.mp3".
Proof.
  apply (allowed_file_ignores_prefix "uploads/2024/" "talk.mp3"). reflexivity.
Defined.

(** X3: the extension is compared without regard to case: replacing it by
    its lower-case form leaves the verdict unchanged. *)
Theorem allowed_file_case_insensitive (stem ext : string) :
  contains "." ext = false ->
  allowed_file (stem ++ "." ++ ext) = allowed_file (stem ++ "." ++ lower ext).
Proof.
  intros H.
  change (stem ++ "." ++ ext)%string with (stem ++ String "." ext)%string.
  change (stem ++ "." ++ lower ext)%string with (stem ++ String "." (lower ext))%string.
  rewrite !allowed_file_split by (rewrite ?contains_dot_lower; exact H).
  rewrite lower_idempotent. reflexivity.
Qed.

Lemma allowed_file_case_insensitive_witness :
  allowed_file "Talk.WAV" = allowed_file "Talk.wav".
Proof.
  apply (allowed_file_case_insensitive "Talk" "WAV"). reflexivity.
Defined.

(* ================================================================== *)
(** * Further properties: the segment builder *)
(* ================================================================== *)

Module BuilderFacts.

Import IndexFacts LoopFacts ScanFacts StrFacts FloatFacts.

(** ** Labels *)

Lemma str_of_int_inj a b : str_of_int a = str_of_int b -> a = b.
Proof.
  unfold str_of_int. intros H.
  assert (N : forall z, Z.to_int z <> Decimal.Pos Decimal.Nil /\
                        Z.to_int z <> Decimal.Neg Decimal.Nil).
  { intros [| p | p]; cbn; split; try discriminate;
      intros E; inversion E as [E']; now apply DecimalPos.Unsigned.to_uint_nonnil in E'. }
  apply DecimalZ.to_int_inj.
  pose proof (DecimalString.NilZero.isi (Z.to_int a) (proj1 (N a)) (proj2 (N a))) as Ha.
  pose proof (DecimalString.NilZero.isi (Z.to_int b) (proj1 (N b)) (proj2 (N b))) as Hb.
  rewrite H in Ha. congruence.
Qed.

Lemma speaker_label_inj a b : speaker_label a = speaker_label b -> a = b.
Proof.
  unfold speaker_label. cbn [append]. intros H.
  apply str_of_int_inj. congruence.
Qed.

(** ** The first and the last segment of a scan *)

Lemma scan_head rest :
  forall run prev,
  exists s l,
    Spec.scan run prev rest = s :: l /\
    speaker s = speaker_label (Spec.run_tag run) /\
    start s = round2 (Spec.run_start run).
Proof.
  induction rest as [| w rest IH]; intros run prev; cbn [Spec.scan].
  - eexists _, _. repeat split.
  - destruct (speaker_tag w =? Spec.run_tag run).
    + destruct (IH (Spec.extend_run run w) w) as [s [l [E [H1 H2]]]].
      exists s, l. auto.
    + eexists _, _. repeat split.
Qed.

Lemma scan_last_end rest :
  forall run prev d,
  end_ (last (Spec.scan run prev rest) d)
  = round2 (total_seconds (end_time (last rest prev))).
Proof.
  induction rest as [| w rest IH]; intros run prev d; cbn [Spec.scan].
  - reflexivity.
  - rewrite (last_cons rest prev w).
    destruct (speaker_tag w =? Spec.run_tag run).
    + apply IH.
    + rewrite last_cons. apply IH.
Qed.

Lemma scan_length_le rest :
  forall run prev,
  (List.length (Spec.scan run prev rest) <= S (List.length rest))%nat.
Proof.
  induction rest as [| w rest IH]; intros run prev; cbn [Spec.scan List.length].
  - lia.
  - destruct (speaker_tag w =? Spec.run_tag run).
    + specialize (IH (Spec.extend_run run w) w). lia.
    + specialize (IH (Spec.new_run w) w). cbn [List.length]. lia.
Qed.

(** ** Scans and runs *)

Lemma run_prefix (w : WordInfo) (tl : list WordInfo) :
  exists r rest,
    tl = r ++ rest /\
    Forall (fun x => speaker_tag x = speaker_tag w) r /\
    match rest with
    | [] => True
    | x :: _ => speaker_tag x <> speaker_tag w
    end.
Proof.
  induction tl as [| a tl IH].
  - exists [], []. repeat split. constructor.
  - destruct (Z.eq_dec (speaker_tag a) (speaker_tag w)) as [E | N].
    + destruct IH as [r [rest [-> [Hr Hrest]]]].
      exists (a :: r), rest. repeat split; [constructor; assumption | assumption].
    + exists [], (a :: tl). repeat split; [constructor | assumption].
Qed.

Lemma maximal_runs_first_run (r : list WordInfo) :
  forall w rest,
  Forall (fun x => speaker_tag x = speaker_tag w) r ->
  match rest with
  | [] => True
  | x :: _ => speaker_tag x <> speaker_tag w
  end ->
  maximal_runs (w :: r ++ rest) = (w :: r) :: maximal_runs rest.
Proof.
  induction r as [| a r IH]; intros w rest Hr Hrest.
  - cbn [app]. destruct rest as [| x rest]; [reflexivity |].
    change (maximal_runs (w :: x :: rest))
      with (match maximal_runs (x :: rest) with
            | (y :: q) :: rs =>
                if speaker_tag w =? speaker_tag y
                then (w :: y :: q) :: rs else [w] :: (y :: q) :: rs
            | _ => [[w]]
            end).
    destruct (maximal_runs_head x rest) as [q [rs E]]. rewrite E.
    replace (speaker_tag w =? speaker_tag x) with false; [reflexivity |].
    symmetry. apply Z.eqb_neq. congruence.
  - inversion Hr as [| ? ? Ha Hr']; subst.
    change (maximal_runs (w :: (a :: r) ++ rest))
      with (match maximal_runs (a :: r ++ rest) with
            | (y :: q) :: rs =>
                if speaker_tag w =? speaker_tag y
                then (w :: y :: q) :: rs else [w] :: (y :: q) :: rs
            | _ => [[w]]
            end).
    rewrite (IH a rest).
    + rewrite Ha, Z.eqb_refl. reflexivity.
    + eapply Forall_impl; [| exact Hr']. cbn. intros; congruence.
    + destruct rest; [exact I | congruence].
Qed.

Lemma scan_runs (n : nat) :
  forall w rest,
  (List.length rest <= n)%nat ->
  Spec.scan (Spec.new_run w) w rest = segments_of_runs (maximal_runs (w :: rest)).
Proof.
  induction n as [| n IH]; intros w rest Hlen;
    destruct (run_prefix w rest) as [r [rest' [-> [Hr Hrest]]]];
    rewrite maximal_runs_first_run by assumption;
    (destruct rest' as [| x rest'];
     [ rewrite app_nil_r, scan_run_final by assumption; reflexivity |]).
  - rewrite length_app in Hlen. cbn [List.length] in Hlen. lia.
  - rewrite scan_run_closed by assumption.
    rewrite IH; [reflexivity |].
    rewrite length_app in Hlen. cbn [List.length] in Hlen. lia.
Qed.

(** ** Composition at a change of speaker *)

Lemma scan_app (a : list WordInfo) :
  forall run prev x b,
  Spec.run_tag run = speaker_tag prev ->
  speaker_tag x <> speaker_tag (last a prev) ->
  Spec.scan run prev (a ++ x :: b)
  = Spec.scan run prev a ++ Spec.scan (Spec.new_run x) x b.
Proof.
  induction a as [| y a IH]; intros run prev x b Htag Hx.
  - cbn [app Spec.scan last] in *. rewrite Htag.
    apply Z.eqb_neq in Hx. rewrite Hx. reflexivity.
  - rewrite last_cons in Hx. cbn [app Spec.scan].
    destruct (speaker_tag y =? Spec.run_tag run) eqn:E.
    + apply IH; [| exact Hx]. cbn. apply Z.eqb_eq in E. congruence.
    + cbn [app]. f_equal. apply IH; [reflexivity | exact Hx].
Qed.

(** ** Order of the segments *)

Lemma scan_labels_differ rest :
  forall run prev,
  Sorted (fun a b => speaker a <> speaker b) (Spec.scan run prev rest).
Proof.
  induction rest as [| w rest IH]; intros run prev; cbn [Spec.scan].
  - repeat constructor.
  - destruct (speaker_tag w =? Spec.run_tag run) eqn:E; [apply IH |].
    constructor; [apply IH |].
    destruct (scan_head rest (Spec.new_run w) w) as [s [l [-> [Hs _]]]].
    constructor. rewrite Hs. cbn [Spec.close_run speaker Spec.new_run Spec.run_tag].
    fold (speaker_label (Spec.run_tag run)).
    intros C. apply speaker_label_inj in C. apply Z.eqb_neq in E. congruence.
Qed.

Lemma scan_starts_sorted rest :
  forall run prev s0,
  Spec.run_start run = total_seconds s0 ->
  Forall (fun w => s0 <= start_time w) rest ->
  StronglySorted (fun a b => start_time a <= start_time b) rest ->
  Sorted (fun a b => Float.le (start a) (start b)) (Spec.scan run prev rest).
Proof.
  induction rest as [| w rest IH]; intros run prev s0 Hs Hge Hsorted; cbn [Spec.scan].
  - repeat constructor.
  - inversion Hge as [| ? ? Hw Hge']; subst.
    inversion Hsorted as [| ? ? Hsorted' Hall]; subst.
    destruct (speaker_tag w =? Spec.run_tag run).
    + apply (IH (Spec.extend_run run w) w s0); assumption.
    + constructor; [apply (IH (Spec.new_run w) w (start_time w)); auto |].
      destruct (scan_head rest (Spec.new_run w) w) as [s [l [-> [_ Hst]]]].
      constructor. unfold Float.le. rewrite Hst.
      cbn [Spec.close_run start Spec.new_run Spec.run_start]. rewrite Hs.
      apply round2_mono, total_seconds_mono, Hw.
Qed.

Lemma scan_no_overlap rest :
  forall run prev,
  Sorted (fun a b => end_time a <= start_time b) (prev :: rest) ->
  Sorted (fun a b => Float.le (end_ a) (start b)) (Spec.scan run prev rest).
Proof.
  induction rest as [| w rest IH]; intros run prev Hsorted; cbn [Spec.scan].
  - repeat constructor.
  - inversion Hsorted as [| ? ? Hsorted' Hhd]; subst.
    inversion Hhd as [| ? ? Hpw]; subst.
    destruct (speaker_tag w =? Spec.run_tag run).
    + apply IH. exact Hsorted'.
    + constructor; [apply IH; exact Hsorted' |].
      destruct (scan_head rest (Spec.new_run w) w) as [s [l [-> [_ Hst]]]].
      constructor. unfold Float.le. rewrite Hst.
      cbn [Spec.close_run end_ Spec.new_run Spec.run_start].
      apply round2_mono, total_seconds_mono, Hpw.
Qed.

(** ** Texts *)

Lemma rstrip_idempotent s : rstrip (rstrip s) = rstrip s.
Proof.
  induction s as [| c s IH]; [reflexivity |].
  cbn [rstrip]. destruct (rstrip s) as [| d r] eqn:E.
  - destruct (is_space c) eqn:C; [reflexivity |].
    cbn [rstrip]. rewrite C. reflexivity.
  - cbn [rstrip]. cbn [rstrip] in IH. rewrite IH. reflexivity.
Qed.

Lemma lstrip_idempotent s : lstrip (lstrip s) = lstrip s.
Proof.
  induction s as [| c s IH]; [reflexivity |].
  cbn [lstrip]. destruct (is_space c) eqn:C; [exact IH |].
  cbn [lstrip]. rewrite C. reflexivity.
Qed.

Lemma lstrip_rstrip s : lstrip s = s -> lstrip (rstrip s) = rstrip s.
Proof.
  destruct s as [| c s]; [reflexivity |].
  cbn [lstrip]. destruct (is_space c) eqn:C.
  - intros H. pose proof (lstrip_length s) as L. rewrite H in L.
    cbn [String.length] in L. lia.
  - intros _. cbn [rstrip].
    destruct (rstrip s); rewrite ?C; cbn [lstrip]; rewrite C; reflexivity.
Qed.

Lemma strip_idempotent s : strip (strip s) = strip s.
Proof.
  unfold strip.
  rewrite (lstrip_rstrip (lstrip s)) by apply lstrip_idempotent.
  apply rstrip_idempotent.
Qed.

Lemma scan_texts_trimmed rest :
  forall run prev,
  Forall (fun s => strip (text s) = text s) (Spec.scan run prev rest).
Proof.
  induction rest as [| w rest IH]; intros run prev; cbn [Spec.scan].
  - repeat constructor. apply strip_idempotent.
  - destruct (speaker_tag w =? Spec.run_tag run); [apply IH |].
    constructor; [apply strip_idempotent | apply IH].
Qed.

(** ** Words that arrive later *)

Lemma scan_extend (a : list WordInfo) :
  forall run prev b,
  exists run',
    Spec.scan run prev (a ++ b)
    = removelast (Spec.scan run prev a) ++ Spec.scan run' (last a prev) b.
Proof.
  induction a as [| y a IH]; intros run prev b.
  - exists run. reflexivity.
  - cbn [app Spec.scan]. rewrite last_cons.
    destruct (speaker_tag y =? Spec.run_tag run).
    + apply IH.
    + destruct (IH (Spec.new_run y) y b) as [run' E]. exists run'.
      rewrite E.
      pose proof (scan_not_nil (Spec.new_run y) y a) as N.
      destruct (Spec.scan (Spec.new_run y) y a) eqn:S; [congruence |].
      reflexivity.
Qed.

(** ** Speakers *)

Lemma scan_speakers rest :
  forall run prev tag,
  (exists s, In s (Spec.scan run prev rest) /\ speaker s = speaker_label tag) <->
  (tag = Spec.run_tag run \/ exists w, In w rest /\ speaker_tag w = tag).
Proof.
  induction rest as [| w rest IH]; intros run prev tag; cbn [Spec.scan].
  - split.
    + intros [s [[<- | []] Hs]]. left. symmetry. apply speaker_label_inj, Hs.
    + intros [-> | [w [[] _]]]. eexists. split; [left; reflexivity | reflexivity].
  - destruct (speaker_tag w =? Spec.run_tag run) eqn:E.
    + apply Z.eqb_eq in E. rewrite IH. cbn [Spec.extend_run Spec.run_tag]. split.
      * intros [-> | [x [Hx Ht]]]; [now left |]. right. exists x. split; [now right | exact Ht].
      * intros [-> | [x [[<- | Hx] Ht]]]; [now left | left; congruence |].
        right. exists x. auto.
    + split.
      * intros [s [[<- | Hin] Hs]].
        -- left. symmetry. apply speaker_label_inj, Hs.
        -- right.
           destruct (proj1 (IH (Spec.new_run w) w tag) (ex_intro _ s (conj Hin Hs)))
             as [-> | [x [Hx Ht]]].
           ++ exists w. split; [now left | reflexivity].
           ++ exists x. split; [now right | exact Ht].
      * intros [-> | [x [[<- | Hx] Ht]]].
        -- eexists. split; [left; reflexivity | reflexivity].
        -- destruct (proj2 (IH (Spec.new_run w) w tag) (or_introl (eq_sym Ht)))
             as [s [Hin Hs]].
           exists s. split; [now right | exact Hs].
        -- destruct (proj2 (IH (Spec.new_run w) w tag)
                       (or_intror (ex_intro _ x (conj Hx Ht))))
             as [s [Hin Hs]].
           exists s. split; [now right | exact Hs].
Qed.

End BuilderFacts.

Import BuilderFacts.

(** X4: on a non-empty word list the segments are, in order, the segments
    of the maximal runs of the list: one segment per run, built from the
    first and the last word of the run and from its texts. *)
Theorem segments_are_the_runs
    (w0 : WordInfo) (rest : list WordInfo) (fallback : string) (duration_sec : float) :
  build_segments (w0 :: rest) fallback duration_sec
  = Ok (segments_of_runs (maximal_runs (w0 :: rest))).
Proof.
  rewrite build_segments_scan. f_equal.
  apply (scan_runs (List.length rest)). lia.
Qed.

(** X5: on a non-empty word list the result is not empty and has at most
    one segment per word; the first segment starts at the (rounded) start
    of the first word and the last segment ends at the (rounded) end of the
    last word. *)
Theorem segments_span_the_words
    (w0 : WordInfo) (rest : list WordInfo) (fallback : string) (duration_sec : float) :
  exists s l,
    build_segments (w0 :: rest) fallback duration_sec = Ok (s :: l) /\
    start s = round2 (total_seconds (start_time w0)) /\
    end_ (last l s) = round2 (total_seconds (end_time (last rest w0))) /\
    (List.length (s :: l) <= List.length (w0 :: rest))%nat.
Proof.
  rewrite build_segments_scan.
  destruct (scan_head rest (Spec.new_run w0) w0) as [s [l [E [_ Hs]]]].
  exists s, l. split; [now rewrite E |]. split; [exact Hs |]. split.
  - rewrite <- (last_cons l s s), <- E. apply scan_last_end.
  - rewrite <- E. apply scan_length_le.
Qed.

(** X6: two consecutive segments never carry the same speaker label. *)
Theorem consecutive_speakers_differ
    (words : list WordInfo) (fallback : string) (duration_sec : float) :
  exists segs,
    build_segments words fallback duration_sec = Ok segs /\
    Sorted (fun a b => speaker a <> speaker b) segs.
Proof.
  destruct words as [| w0 rest].
  - eexists. split; [reflexivity |]. repeat constructor.
  - rewrite build_segments_scan. eexists. split; [reflexivity |].
    apply scan_labels_differ.
Qed.

(** X7: when the words come in non-decreasing order of start time, so do
    the segments. *)
Theorem segments_in_start_order
    (words : list WordInfo) (fallback : string) (duration_sec : float) :
  Sorted (fun a b => start_time a <= start_time b) words ->
  exists segs,
    build_segments words fallback duration_sec = Ok segs /\
    Sorted (fun a b => Float.le (start a) (start b)) segs.
Proof.
  intros Hsorted. destruct words as [| w0 rest].
  - eexists. split; [reflexivity |]. repeat constructor.
  - rewrite build_segments_scan. eexists. split; [reflexivity |].
    apply Sorted_StronglySorted in Hsorted; [| intros a b c; lia].
    inversion Hsorted as [| ? ? Hs' Hall]; subst.
    apply (scan_starts_sorted rest (Spec.new_run w0) w0 (start_time w0)); auto.
Qed.

Lemma segments_in_start_order_witness :
  exists segs,
    build_segments [word_at 1 0 1 "hi"; word_at 2 1 2 "yo"; word_at 1 2 3 "ok"]
      "" 0%Q = Ok segs /\
    Sorted (fun a b => Float.le (start a) (start b)) segs.
Proof.
  apply (segments_in_start_order
           [word_at 1 0 1 "hi"; word_at 2 1 2 "yo"; word_at 1 2 3 "ok"] "" 0%Q).
  repeat constructor; cbn; lia.
Defined.

(** X8: when every word ends no later than the next word starts, every
    segment ends no later than the next segment starts. *)
Theorem segments_do_not_overlap
    (words : list WordInfo) (fallback : string) (duration_sec : float) :
  Sorted (fun a b => end_time a <= start_time b) words ->
  exists segs,
    build_segments words fallback duration_sec = Ok segs /\
    Sorted (fun a b => Float.le (end_ a) (start b)) segs.
Proof.
  intros Hsorted. destruct words as [| w0 rest].
  - eexists. split; [reflexivity |]. repeat constructor.
  - rewrite build_segments_scan. eexists. split; [reflexivity |].
    apply scan_no_overlap, Hsorted.
Qed.

Lemma segments_do_not_overlap_witness :
  exists segs,
    build_segments [word_at 1 0 1 "hi"; word_at 2 1 2 "yo"; word_at 1 2 3 "ok"]
      "" 0%Q = Ok segs /\
    Sorted (fun a b => Float.le (end_ a) (start b)) segs.
Proof.
  apply (segments_do_not_overlap
           [word_at 1 0 1 "hi"; word_at 2 1 2 "yo"; word_at 1 2 3 "ok"] "" 0%Q).
  repeat constructor; cbn; lia.
Defined.

(** X9: the text of every segment, the fallback segment included, is
    already stripped: stripping it again changes nothing. *)
Theorem segment_texts_are_stripped
    (words : list WordInfo) (fallback : string) (duration_sec : float) :
  exists segs,
    build_segments words fallback duration_sec = Ok segs /\
    Forall (fun s => strip (text s) = text s) segs.
Proof.
  destruct words as [| w0 rest].
  - eexists. split; [reflexivity |]. repeat constructor. apply strip_idempotent.
  - rewrite build_segments_scan. eexists. split; [reflexivity |].
    apply scan_texts_trimmed.
Qed.

(** X10: segmentation composes at a change of speaker: when the last word
    of one list and the first word of the next differ in speaker tag, the
    segments of the concatenation are the segments of the first list
    followed by those of the second. *)
Theorem build_segments_app
    (w1 : WordInfo) (r1 : list WordInfo) (w2 : WordInfo) (r2 : list WordInfo)
    (fallback : string) (duration_sec : float) :
  speaker_tag w2 <> speaker_tag (last r1 w1) ->
  exists s1 s2,
    build_segments (w1 :: r1) fallback duration_sec = Ok s1 /\
    build_segments (w2 :: r2) fallback duration_sec = Ok s2 /\
    build_segments ((w1 :: r1) ++ w2 :: r2) fallback duration_sec = Ok (s1 ++ s2).
Proof.
  intros H. cbn [app]. rewrite !build_segments_scan.
  eexists _, _. split; [reflexivity |]. split; [reflexivity |].
  rewrite scan_app by (reflexivity || exact H). reflexivity.
Qed.

Lemma build_segments_app_witness :
  exists s1 s2,
    build_segments [word_at 1 0 1 "hi"; word_at 1 1 2 "there"] "" 0%Q = Ok s1 /\
    build_segments [word_at 2 2 3 "yo"] "" 0%Q = Ok s2 /\
    build_segments
      ([word_at 1 0 1 "hi"; word_at 1 1 2 "there"] ++ [word_at 2 2 3 "yo"]) "" 0%Q
    = Ok (s1 ++ s2).
Proof.
  apply (build_segments_app (word_at 1 0 1 "hi") [word_at 1 1 2 "there"]
           (word_at 2 2 3 "yo") [] "" 0%Q).
  cbn. lia.
Defined.

(** X11: no speaker is lost and none is invented: a label "Speaker t"
    occurs among the segments exactly when some word carries the tag t. *)
Theorem speakers_are_preserved
    (w0 : WordInfo) (rest : list WordInfo) (fallback : string)
    (duration_sec : float) (tag : Z) :
  exists segs,
    build_segments (w0 :: rest) fallback duration_sec = Ok segs /\
    ((exists s, In s segs /\ speaker s = speaker_label tag) <->
     (exists w, In w (w0 :: rest) /\ speaker_tag w = tag)).
Proof.
  rewrite build_segments_scan. eexists. split; [reflexivity |].
  rewrite scan_speakers. cbn [Spec.new_run Spec.run_tag]. split.
  - intros [-> | [w [Hin Ht]]].
    + exists w0. split; [now left | reflexivity].
    + exists w. split; [now right | exact Ht].
  - intros [w [[<- | Hin] Ht]]; [now left |].
    right. exists w. auto.
Qed.

(* ================================================================== *)
(** * Further properties: from the response to the answer *)
(* ================================================================== *)

Module ResponseFacts.

Import IndexFacts.

Lemma getitem_last_result {A} (l : list A) (a : A) :
  getitem (l ++ [a]) (-1) = Ok a.
Proof.
  destruct l as [| x l]; cbn [app].
  - apply getitem_minus_one.
  - rewrite getitem_minus_one, last_last. reflexivity.
Qed.

Lemma segments_of_response_last rs r d :
  segments_of_response {| results := rs ++ [r] |} d
  = (alternative <- getitem (alternatives r) 0 ;;
     build_segments (words alternative) (transcript alternative) d).
Proof.
  unfold segments_of_response. cbn [results].
  rewrite getitem_last_result.
  destruct (rs ++ [r]) eqn:E; [destruct rs; discriminate | reflexivity].
Qed.

End ResponseFacts.

(** X12: of a response only the first alternative of the last result is
    used: the results before it and the other alternatives do not matter. *)
Theorem only_last_result_first_alternative
    (rs : list RecognitionResult) (a : Alternative) (alts : list Alternative)
    (duration_sec : float) :
  segments_of_response
    {| results := rs ++ [ {| alternatives := a :: alts |} ] |} duration_sec
  = build_segments (words a) (transcript a) duration_sec.
Proof.
  rewrite ResponseFacts.segments_of_response_last. cbn [alternatives].
  rewrite IndexFacts.getitem_head. reflexivity.
Qed.

(** X13: [segments_of_response] raises only [IndexError], and it does so
    exactly when there are results and the last one has no alternative. *)
Theorem segments_of_response_raises_iff
    (response : RecognizeResponse) (duration_sec : float) (e : exn) :
  segments_of_response response duration_sec = Raise e <->
  e = IndexError /\
  exists rs, results response = rs ++ [ {| alternatives := [] |} ].
Proof.
  destruct response as [res]. cbn [results]. split.
  - intros H. destruct res as [| r0 res]; [discriminate |].
    destruct (@exists_last _ (r0 :: res) ltac:(discriminate)) as [rs [[al] E]].
    rewrite E in *. rewrite ResponseFacts.segments_of_response_last in H.
    cbn [alternatives] in H. destruct al as [| a al].
    + cbn in H. split; [congruence | exists rs; reflexivity].
    + rewrite IndexFacts.getitem_head in H. cbn [bind] in H.
      destruct (build_segments_total (words a) (transcript a) duration_sec) as [segs Hs].
      congruence.
  - intros [-> [rs ->]]. rewrite ResponseFacts.segments_of_response_last. reflexivity.
Qed.

(* ================================================================== *)
(** * Further properties: the pipeline and the handler *)
(* ================================================================== *)

Section Handler.

Context (World AudioSegment : Type).
Context (from_file : string -> M World AudioSegment).
Context (set_channels set_frame_rate : AudioSegment -> Z -> AudioSegment).
Context (export : AudioSegment -> string -> string -> M World unit).
Context (duration_seconds : AudioSegment -> float).
Context (read : string -> M World bytes).
Context (long_running_recognize recognize :
           RecognitionConfig -> bytes -> M World RecognizeResponse).
Context (save : FileStorage -> string -> M World unit).

Local Abbreviation pipeline :=
  (process_audio_with_diarization World AudioSegment from_file set_channels
     set_frame_rate export duration_seconds read long_running_recognize recognize).
Local Abbreviation handler :=
  (upload World AudioSegment from_file set_channels set_frame_rate export
     duration_seconds read long_running_recognize recognize save).
Local Abbreviation checked_upload :=
  (process_upload World AudioSegment from_file set_channels set_frame_rate export
     duration_seconds read long_running_recognize recognize save).





(** X18: the only exception that leaves the handler is one raised by
    [file.save]: the handler raises exactly when the three checks pass and
    saving the file raises. *)
Theorem only_save_failure_escapes (request : Request) (e : exn) (w w' : World) :
  handler request w = (Raise e, w') <->
  exists file,
    lookup "file" (files request) = Some file /\
    filename file <> EmptyString /\
    allowed_file (filename file) = Ok true /\
    save file (os_path_join UPLOAD_FOLDER (filename file)) w = (Raise e, w').
Proof.
  unfold upload.
  destruct (lookup "file" (files request)) as [file |].
  2: { split; [discriminate | intros [f [H _]]; discriminate]. }
  destruct (String.eqb (filename file) "") eqn:Hname.
  { apply String.eqb_eq in Hname. split; [discriminate |].
    intros [f [H [Hne _]]]. inversion H; subst. congruence. }
  apply String.eqb_neq in Hname.
  unfold bindM at 1. unfold lift.
  rewrite UploadFacts.allowed_file_extension.
  destruct (match extension (filename file) with
            | Some ext => existsb (String.eqb (lower ext)) ALLOWED_EXTENSIONS
            | None => false
            end) eqn:A; cbn [negb].
  2: { split; [discriminate |].
       intros [f [H [_ [Hal _]]]]. inversion H; subst.
       rewrite UploadFacts.allowed_file_extension, A in Hal. discriminate. }
  unfold process_upload, try_except, bindM.
  destruct (save file (os_path_join UPLOAD_FOLDER (filename file)) w)
    as [[[] | e0] w0] eqn:S.
  - split.
    + destruct (process_audio_with_diarization _ _ _ _ _ _ _ _ _ _ _ w0)
        as [[segs | e1] w1]; discriminate.
    + intros [f [H [_ [_ Hs]]]]. inversion H; subst. congruence.
  - split.
    + intros H. exists file. rewrite UploadFacts.allowed_file_extension, A.
      repeat split; auto. congruence.
    + intros [f [H [_ [_ Hs]]]]. inversion H; subst. congruence.
Qed.

(** X19: every answer of the handler has status 200, 400 or 500; a 200
    carries segments, a 500 carries the exception of the pipeline, a 400 one
    of the three validation messages. *)
Theorem handler_answers (request : Request) (r : Response) (w w' : World) :
  handler request w = (Ok r, w') ->
  (status r = 200 /\ exists segs, body r = segments_body segs) \/
  (status r = 500 /\ exists e, body r = exception_body e) \/
  (status r = 400 /\
   exists msg, body r = error_body msg /\
     In msg ["No file part in request"; "No file selected";
             "Unsupported file type"]%string).
Proof.
  unfold upload.
  destruct (lookup "file" (files request)) as [file |].
  2: { intros H. inversion H; subst. right. right. cbn. eauto 6. }
  destruct (String.eqb (filename file) "").
  { intros H. inversion H; subst. right. right. cbn. eauto 6. }
  unfold bindM at 1. unfold lift.
  rewrite UploadFacts.allowed_file_extension.
  destruct (match extension (filename file) with
            | Some ext => existsb (String.eqb (lower ext)) ALLOWED_EXTENSIONS
            | None => false
            end); cbn [negb].
  2: { intros H. inversion H; subst. right. right. cbn. eauto 7. }
  unfold process_upload, try_except, bindM.
  destruct (save file (os_path_join UPLOAD_FOLDER (filename file)) w)
    as [[[] | e0] w0]; [| discriminate].
  destruct (process_audio_with_diarization _ _ _ _ _ _ _ _ _ _ _ w0)
    as [[segs | e1] w1]; intros H; inversion H; subst; cbn; eauto.
Qed.

End Handler.

(** X20: segments that are closed stay as they are when more words
    arrive: all segments of a word list but the last one are the first
    segments of every extension of the list. *)
Theorem closed_segments_are_stable
    (w0 : WordInfo) (rest more : list WordInfo) (fallback : string)
    (duration_sec : float) :
  exists segs tail,
    build_segments (w0 :: rest) fallback duration_sec = Ok segs /\
    build_segments ((w0 :: rest) ++ more) fallback duration_sec
    = Ok (removelast segs ++ tail) /\
    tail <> [].
Proof.
  cbn [app]. rewrite !build_segments_scan.
  destruct (BuilderFacts.scan_extend rest (Spec.new_run w0) w0 more) as [run' E].
  eexists _, _. split; [reflexivity |]. split; [now rewrite E |].
  apply ScanFacts.scan_not_nil.
Qed.





Lemma handler_answers_witness :
  let r := {| body := segments_body
                [ {| speaker := "Speaker 1"; start := 0%Q; end_ := 2%Q;
                     text := "hi there" |};
                  {| speaker := "Speaker 2"; start := 2%Q; end_ := 3%Q;
                     text := "yo" |} ];
              status := 200 |} in
  (status r = 200 /\ exists segs, body r = segments_body segs) \/
  (status r = 500 /\ exists e, body r = exception_body e) \/
  (status r = 400 /\
   exists msg, body r = error_body msg /\
     In msg ["No file part in request"; "No file selected";
             "Unsupported file type"]%string).
Proof.
  apply (handler_answers Stub.World Stub.AudioSegment
           (Stub.from_file (1 # 2)%Q) Stub.set_channels Stub.set_frame_rate
           Stub.export Stub.duration_seconds Stub.read
           (Stub.answer {| results := [] |}) (Stub.answer Sample.response)
           Stub.save
           {| files := [("file"%string, {| filename := "talk.wav"; stream := [] |})] |}
           _ [] ["uploads/processed.wav"; "uploads/talk.wav"]%string).
  reflexivity.
Defined.
